(** * mongobetween: the proxy supervisor (proxy/proxy.go)

    A shallow embedding of [proxy.go]: the two close-once shutdown signals
    ([Shutdown], [Kill]), the crash-and-restart wrapper ([run]), the listener
    set-up ([listen]) and the accept loop with its per-connection session and
    force-close watcher ([accept]).

    The file has two layers.
    - The functions of [proxy.go] are written in a small monad [Go] that has
      what the source uses of the language: early [return], [panic], a
      per-call stack of deferred calls, [recover], and blocking.  What the
      serving goroutine receives from outside (results of [mongo.Connect],
      [net.Listen], [l.Accept], signals raised by other goroutines) is given
      by an environment [Env].
    - The goroutines that run concurrently (callers of [Shutdown] and [Kill],
      the accept loop, the sessions and their watchers) are put together in an
      interleaving step relation [step] on a [State]. *)

From Stdlib Require Import ZArith Lia Bool.
From stdpp Require Import base tactics option list relations strings.

(** ** Values *)

(** A channel of [proxy.go] is never sent on: it is open or closed. *)
Inductive ChanState := ChOpen | ChClosed.

(** [p.quit], [p.kill], and the [done] channel of connection [c]. *)
Inductive Chan := ChQuit | ChKill | ChDone (c : nat).

(** A non-nil [error]; the Go type [error] is [option GoError], [nil] is [None]. *)
Definition GoError := string.
Definition error : Type := option GoError.

(** The value carried by a panic. *)
Definition PanicVal := string.

Inductive Upstream := Primary | Failover.
Inductive Level := Info | Warn | Error.

(** The goroutines started with [go] in [proxy.go]. *)
Inductive Goroutine :=
| GRestart                (* run, lines 93-98 *)
| GListenerCloser         (* listen, lines 136-142 *)
| GSession (c : nat)      (* accept, lines 179-189 *)
| GWatcher (c : nat).     (* accept, lines 191-201 *)

(** Structured fields of a log line ([zap.String], [zap.Duration], [zap.Error]). *)
Inductive Field :=
| FPanic (v : PanicVal)   (* zap.String("panic", fmt.Sprintf("%v", r)) *)
| FStack                  (* zap.String("stack", string(debug.Stack())) *)
| FSleep (d : Z)          (* zap.Duration("sleep", d) *)
| FError (e : GoError)    (* zap.Error(err) *)
| FRemote (a : string).   (* zap.String("remote_address", a) *)

(** What the program does to the outside, in order. *)
Inductive Event :=
| EvLog (l : Level) (msg : string) (fs : list Field)
| EvConnect (u : Upstream) (ping : bool)   (* mongo.Connect *)
| EvMongoClose (u : Upstream)              (* m.Close() *)
| EvUmask (mask : Z)                       (* syscall.Umask(mask) *)
| EvUnlink (path : string)                 (* syscall.Unlink(path) *)
| EvListen (network address : string)      (* net.Listen *)
| EvListenerClose                          (* l.Close() *)
| EvGauge (name : string)                  (* util.StatsdBackgroundGauge *)
| EvChanClose (ch : Chan)                  (* a close(ch) that closed ch *)
| EvWgAdd (n : Z)
| EvWgDone (c : nat)
| EvWgWait
| EvOpened (c : nat)                       (* opened("connection_opened", ...) *)
| EvClosed (c : nat)                       (* closed("connection_closed", ...) *)
| EvConnClose (c : nat) (ok : bool)        (* c.Close(); ok: it returned nil *)
| EvGo (g : Goroutine)
| EvSleep (d : Z).

Global Instance ChanState_eq_dec : EqDecision ChanState.
Proof. solve_decision. Defined.
Global Instance Chan_eq_dec : EqDecision Chan.
Proof. solve_decision. Defined.
Global Instance Upstream_eq_dec : EqDecision Upstream.
Proof. solve_decision. Defined.
Global Instance Level_eq_dec : EqDecision Level.
Proof. solve_decision. Defined.
Global Instance Goroutine_eq_dec : EqDecision Goroutine.
Proof. solve_decision. Defined.
Global Instance Field_eq_dec : EqDecision Field.
Proof. solve_decision. Defined.
Global Instance Event_eq_dec : EqDecision Event.
Proof. solve_decision. Defined.

(** [time.Duration] counts nanoseconds. *)
Definition Second : Z := 1000000000.

(** const restartSleep = 1 * time.Second *)
Definition restartSleep : Z := 1 * Second.

(** The fields of [Proxy] that [proxy.go] reads.  [log], [statsd], [config]
    and the client options are handed on to collaborators unread; of
    [p.failover] only whether it is nil matters.  The channels [quit] and
    [kill] are made open by [NewProxy]; their state is in the [World]. *)
Record Proxy := {
  network : string;
  address : string;
  unlink : bool;
  ping : bool;
  failover : bool   (* p.failover != nil *)
}.

(** The session goroutine of a connection (lines 179-189). *)
Inductive SessPc :=
| S_None                    (* not started *)
| S_LogAccept               (* 180: log.Info("Accept") *)
| S_Handle                  (* 181: in handleConnection(...) *)
| S_Close                   (* 183: _ = c.Close() *)
| S_LogClose                (* 184: log.Info("Close") *)
| S_CloseDone               (* 186: close(done) *)
| S_WgDone                  (* 187: wg.Done() *)
| S_Closed                  (* 188: closed("connection_closed", ...) *)
| S_Exit                    (* the goroutine has ended *)
| S_Panicked (v : PanicVal).  (* the goroutine has died of a panic *)

(** The force-close watcher of a connection (lines 191-201). *)
Inductive WatchPc :=
| W_None                    (* not started *)
| W_Select                  (* 192: select *)
| W_Close                   (* 196: err := c.Close() *)
| W_Warn                    (* 198: log.Warn("Force closed connection") *)
| W_Exit.                   (* the goroutine has ended *)

(** An accepted connection [c]: its socket, the [done] channel made for it
    (accept, lines 158 and 175), and where its two goroutines are. *)
Record Conn := {
  remote : string;       (* c.RemoteAddr().String() *)
  sock_open : bool;      (* the socket has not been closed *)
  done : ChanState;
  sess : SessPc;         (* its session goroutine *)
  watch : WatchPc        (* its force-close watcher *)
}.

Definition set_sock (b : bool) (cn : Conn) : Conn :=
  {| remote := remote cn; sock_open := b; done := done cn;
     sess := sess cn; watch := watch cn |}.

Definition set_done (d : ChanState) (cn : Conn) : Conn :=
  {| remote := remote cn; sock_open := sock_open cn; done := d;
     sess := sess cn; watch := watch cn |}.

Definition set_sess (pc : SessPc) (cn : Conn) : Conn :=
  {| remote := remote cn; sock_open := sock_open cn; done := done cn;
     sess := pc; watch := watch cn |}.

Definition set_watch (pc : WatchPc) (cn : Conn) : Conn :=
  {| remote := remote cn; sock_open := sock_open cn; done := done cn;
     sess := sess cn; watch := pc |}.

(** The state shared by the goroutines of the process, and the connections
    with their goroutines. *)
Record World := {
  quit : ChanState;
  kill : ChanState;
  umask : Z;             (* the file-creation mask of the process *)
  listener : bool;       (* the listening socket l is open *)
  wg : Z;                (* the counter of the WaitGroup of accept *)
  gauge : Z;             (* the count behind the open_connections gauge *)
  conns : list Conn;     (* the accepted connections, by index *)
  trace : list Event     (* oldest first *)
}.

(** The world after [NewProxy]: both channels freshly made. *)
Definition NewProxy_world (mask : Z) : World :=
  {| quit := ChOpen; kill := ChOpen; umask := mask; listener := false;
     wg := 0; gauge := 0; conns := []; trace := [] |}.

Definition emit (e : Event) (w : World) : World :=
  {| quit := quit w; kill := kill w; umask := umask w; listener := listener w;
     wg := wg w; gauge := gauge w; conns := conns w; trace := trace w ++ [e] |}.

Definition set_quit (s : ChanState) (w : World) : World :=
  {| quit := s; kill := kill w; umask := umask w; listener := listener w;
     wg := wg w; gauge := gauge w; conns := conns w; trace := trace w |}.

Definition set_kill (s : ChanState) (w : World) : World :=
  {| quit := quit w; kill := s; umask := umask w; listener := listener w;
     wg := wg w; gauge := gauge w; conns := conns w; trace := trace w |}.

Definition set_umask (m : Z) (w : World) : World :=
  {| quit := quit w; kill := kill w; umask := m; listener := listener w;
     wg := wg w; gauge := gauge w; conns := conns w; trace := trace w |}.

Definition set_listener (b : bool) (w : World) : World :=
  {| quit := quit w; kill := kill w; umask := umask w; listener := b;
     wg := wg w; gauge := gauge w; conns := conns w; trace := trace w |}.

Definition set_wg (n : Z) (w : World) : World :=
  {| quit := quit w; kill := kill w; umask := umask w; listener := listener w;
     wg := n; gauge := gauge w; conns := conns w; trace := trace w |}.

Definition set_gauge (n : Z) (w : World) : World :=
  {| quit := quit w; kill := kill w; umask := umask w; listener := listener w;
     wg := wg w; gauge := n; conns := conns w; trace := trace w |}.

Definition set_conns (cs : list Conn) (w : World) : World :=
  {| quit := quit w; kill := kill w; umask := umask w; listener := listener w;
     wg := wg w; gauge := gauge w; conns := cs; trace := trace w |}.

Definition chan_state (ch : Chan) (w : World) : option ChanState :=
  match ch with
  | ChQuit => Some (quit w)
  | ChKill => Some (kill w)
  | ChDone c => done <$> conns w !! c
  end.

(** A change of connection [c]; no change when there is no such connection. *)
Definition upd_conn (c : nat) (f : Conn -> Conn) (w : World) : World :=
  set_conns (alter f c (conns w)) w.

Definition set_chan (ch : Chan) (s : ChanState) (w : World) : World :=
  match ch with
  | ChQuit => set_quit s w
  | ChKill => set_kill s w
  | ChDone c => upd_conn c (set_done s) w
  end.

(** ** The monad of function bodies

    A statement of a function body ends in one of four ways.  The function
    returns values of type [R]; the statement itself yields an [A]. *)
Inductive Out (R A : Type) :=
| Normal (a : A)          (* it completed; control goes to the next statement *)
| Return (r : R)          (* it executed [return r] *)
| Panic (v : PanicVal)    (* it panicked *)
| Blocked.                (* it never completes *)
Arguments Normal {R A} a.
Arguments Return {R A} r.
Arguments Panic {R A} v.
Arguments Blocked {R A}.

(** The result of a call, seen by the caller. *)
Inductive Res (A : Type) :=
| Ret (a : A)
| Panicked (v : PanicVal)
| NoReturn.
Arguments Ret {A} a.
Arguments Panicked {A} v.
Arguments NoReturn {A}.

(** A deferred call.  It is run when the function that deferred it returns
    or panics, with the panic in flight ([None] when there is none), and it
    yields the panic that is in flight after it. *)
Definition Deferred := option PanicVal -> World -> Res (option PanicVal) * World.

(** A statement runs on the stack of deferred calls of the function it is in
    (newest first) and on the world. *)
Definition Go (R A : Type) := list Deferred -> World -> Out R A * list Deferred * World.

Definition ret {R A} (a : A) : Go R A := fun ds w => (Normal a, ds, w).

Definition bind {R A B} (m : Go R A) (k : A -> Go R B) : Go R B :=
  fun ds w =>
    match m ds w with
    | (Normal a, ds', w') => k a ds' w'
    | (Return r, ds', w') => (Return r, ds', w')
    | (Panic v, ds', w') => (Panic v, ds', w')
    | (Blocked, ds', w') => (Blocked, ds', w')
    end.

Notation "x <- m ;; k" := (bind m (fun x => k))
  (at level 100, m at next level, right associativity).
Notation "m ;; k" := (bind m (fun _ => k))
  (at level 100, right associativity).

(** [return r] *)
Definition return_ {R A} (r : R) : Go R A := fun ds w => (Return r, ds, w).

(** [panic(v)] *)
Definition panic {R A} (v : PanicVal) : Go R A := fun ds w => (Panic v, ds, w).

Definition block {R A} : Go R A := fun ds w => (Blocked, ds, w).

(** [defer d] *)
Definition defer_ {R} (d : Deferred) : Go R unit := fun ds w => (Normal tt, d :: ds, w).

(** Reading and changing the world. *)
Definition get {R} : Go R World := fun ds w => (Normal w, ds, w).
Definition modify {R} (f : World -> World) : Go R unit := fun ds w => (Normal tt, ds, f w).

(** Running the deferred calls of a function, newest first.  A deferred call
    that panics replaces the panic in flight; the others are still run. *)
Fixpoint unwind (ds : list Deferred) (p : option PanicVal) (w : World)
  : Res (option PanicVal) * World :=
  match ds with
  | [] => (Ret p, w)
  | d :: ds' =>
      match d p w with
      | (Ret p', w') => unwind ds' p' w'
      | (Panicked v, w') => unwind ds' (Some v) w'
      | (NoReturn, w') => (NoReturn, w')
      end
  end.

(** The end of a call: the deferred calls are run; if a panic is still in
    flight after them it goes on to the caller, otherwise the function
    returns [a]. *)
Definition finish {A} (ds : list Deferred) (p : option PanicVal) (a : A) (w : World)
  : Res A * World :=
  match unwind ds p w with
  | (Ret None, w') => (Ret a, w')
  | (Ret (Some v), w') => (Panicked v, w')
  | (Panicked v, w') => (Panicked v, w')
  | (NoReturn, w') => (NoReturn, w')
  end.

(** A call of a function with body [body] and (unnamed) results of zero value
    [zero]: the body runs on a stack of deferred calls of its own.  A function
    that recovers from a panic returns the zero value. *)
Definition call {R} (zero : R) (body : Go R R) (w : World) : Res R * World :=
  match body [] w with
  | (Normal r, ds, w') => finish ds None r w'
  | (Return r, ds, w') => finish ds None r w'
  | (Panic v, ds, w') => finish ds (Some v) zero w'
  | (Blocked, _, w') => (NoReturn, w')
  end.

(** The call as a statement of the caller. *)
Definition func {R R'} (zero : R) (body : Go R R) : Go R' R :=
  fun ds w =>
    match call zero body w with
    | (Ret r, w') => (Normal r, ds, w')
    | (Panicked v, w') => (Panic v, ds, w')
    | (NoReturn, w') => (Blocked, ds, w')
    end.

(** [defer f()] for a call [f()] that does not recover: the panic in flight
    stays in flight. *)
Definition defer_call {R} (f : Go unit unit) : Go R unit :=
  defer_ (fun p w =>
    match call tt f w with
    | (Ret _, w') => (Ret p, w')
    | (Panicked v, w') => (Panicked v, w')
    | (NoReturn, w') => (NoReturn, w')
    end).

(** [defer func() { r := recover(); h(r) }()]: [recover] yields the panic in
    flight and stops it. *)
Definition defer_recover {R} (h : option PanicVal -> Go unit unit) : Go R unit :=
  defer_ (fun p w =>
    match call tt (h p) w with
    | (Ret _, w') => (Ret None, w')
    | (Panicked v, w') => (Panicked v, w')
    | (NoReturn, w') => (NoReturn, w')
    end).

(** Running a statement outside of any function body (a goroutine started on
    it, or one instruction of a goroutine). *)
Definition exec {A} (m : Go Empty_set A) (w : World) : Res A * World :=
  match m [] w with
  | (Normal a, _, w') => (Ret a, w')
  | (Return r, _, w') => match r with end
  | (Panic v, _, w') => (Panicked v, w')
  | (Blocked, _, w') => (NoReturn, w')
  end.

(** ** The operations [proxy.go] uses *)

(** A call of the logger. *)
Definition log {R} (l : Level) (msg : string) (fs : list Field) : Go R unit :=
  modify (emit (EvLog l msg fs)).

(** [close(ch)]: closing a closed channel panics. *)
Definition close_chan {R} (ch : Chan) : Go R unit :=
  w <- get;;
  match chan_state ch w with
  | Some ChOpen => modify (fun w => emit (EvChanClose ch) (set_chan ch ChClosed w))
  | Some ChClosed => panic "close of closed channel"
  | None => panic "close of nil channel"
  end.

(** Whether a receive from [ch] is ready, that is, whether [ch] is closed. *)
Definition ready {R} (ch : Chan) : Go R bool :=
  w <- get;;
  ret (bool_decide (chan_state ch w = Some ChClosed)).

(** [syscall.Umask(mask)]: sets the mask and returns the old one. *)
Definition Umask {R} (mask : Z) : Go R Z :=
  w <- get;;
  modify (fun w => emit (EvUmask mask) (set_umask mask w));;
  ret (umask w).

(** [syscall.Unlink(path)]; the source drops its result. *)
Definition Unlink {R} (path : string) : Go R unit :=
  modify (emit (EvUnlink path)).

(** [go f()] *)
Definition go {R} (g : Goroutine) : Go R unit := modify (emit (EvGo g)).

(** [time.Sleep(d)] *)
Definition Sleep {R} (d : Z) : Go R unit := modify (emit (EvSleep d)).

(** [net.Listen(network, address)], with the result the system gives. *)
Inductive ListenResult :=
| ListenOk
| ListenErr (e : GoError)
| ListenPanic (v : PanicVal).

Definition net_Listen {R} (res : ListenResult) (network address : string) : Go R error :=
  modify (emit (EvListen network address));;
  match res with
  | ListenOk => modify (set_listener true);; ret None
  | ListenErr e => ret (Some e)
  | ListenPanic v => panic v
  end.

(** [l.Close()]: closing a listener that is already closed is an error. *)
Definition listener_Close {R} : Go R error :=
  w <- get;;
  modify (fun w => emit EvListenerClose (set_listener false w));;
  ret (if listener w then None else Some "use of closed network connection").

(** [c.Close()] of an accepted connection: closing a socket that is already
    closed is an error. *)
Definition conn_Close {R} (c : nat) : Go R error :=
  w <- get;;
  match conns w !! c with
  | Some cn =>
      modify (fun w => emit (EvConnClose c (sock_open cn)) (upd_conn c (set_sock false) w));;
      ret (if sock_open cn then None else Some "use of closed network connection")
  | None => panic "invalid memory address or nil pointer dereference"
  end.

(** [wg.Add(n)], [wg.Done()], [wg.Wait()] of [sync.WaitGroup]: a negative
    counter panics; [Wait] comes back when the counter is zero. *)
Definition wg_Add {R} (n : Z) : Go R unit :=
  w <- get;;
  if (wg w + n <? 0)%Z then panic "sync: negative WaitGroup counter"
  else modify (fun w => emit (EvWgAdd n) (set_wg (wg w + n) w)).

Definition wg_Done {R} (c : nat) : Go R unit :=
  w <- get;;
  if (wg w - 1 <? 0)%Z then panic "sync: negative WaitGroup counter"
  else modify (fun w => emit (EvWgDone c) (set_wg (wg w - 1) w)).

Definition wg_Wait {R} : Go R unit :=
  w <- get;;
  if (wg w =? 0)%Z then modify (emit EvWgWait) else block.

(** Modelled from the spec: [mongo.Connect] and the [Close] method of its handle, of the
    package [mongo] of this repository, which is not in [proxy.go].  Spec,
    section 6: the upstream collaborator "exposes Connect(options, probe
    bool) -> (handle, error) and Close(handle)".  The result of a connect is
    given from outside; a connect may also fail by a runtime failure. *)
Inductive ConnectResult :=
| ConnectOk
| ConnectErr (e : GoError)
| ConnectPanic (v : PanicVal).

Definition mongo_Connect {R} (u : Upstream) (probe : bool) (res : ConnectResult)
  : Go R error :=
  modify (emit (EvConnect u probe));;
  match res with
  | ConnectOk => ret None
  | ConnectErr e => ret (Some e)
  | ConnectPanic v => panic v
  end.

Definition mongo_Close {R} (u : Upstream) : Go R unit :=
  modify (emit (EvMongoClose u)).

(** Modelled from the spec: [util.StatsdBackgroundGauge] of the package
    [util] of this repository, which is not in [proxy.go].  Spec, section 6:
    "a background gauge primitive: given a metric name and tag set, returns
    two callbacks, one to call on opened events and one on closed events,
    used to track concurrent connection count".  The count starts at zero;
    [opened] adds one to it and [closed] takes one off.  The connection a
    callback is called for is recorded in the trace only. *)
Definition StatsdBackgroundGauge {R} (name : string) : Go R unit :=
  modify (fun w => emit (EvGauge name) (set_gauge 0 w)).

Definition opened {R} (c : nat) : Go R unit :=
  modify (fun w => emit (EvOpened c) (set_gauge (gauge w + 1) w)).

Definition closed {R} (c : nat) : Go R unit :=
  modify (fun w => emit (EvClosed c) (set_gauge (gauge w - 1) w)).

(** [strings.HasPrefix(s, prefix)] and [strings.Contains(s, substr)]. *)
Fixpoint HasPrefix (s prefix : string) : bool :=
  match prefix, s with
  | EmptyString, _ => true
  | String a prefix', String b s' => bool_decide (a = b) && HasPrefix s' prefix'
  | String _ _, EmptyString => false
  end.

Fixpoint Contains (s substr : string) : bool :=
  HasPrefix s substr ||
  match s with
  | EmptyString => false
  | String _ s' => Contains s' substr
  end.

(** ** The shutdown signals (lines 69-83) *)

(** func (p *Proxy) Shutdown() *)
Definition Shutdown {R} : Go R unit :=
  func tt (
    defer_recover (fun _ => ret tt);;   (* "close of closed channel" panic
                                           if Shutdown() was already called *)
    close_chan ChQuit).

(** [Kill] from the return of [p.Shutdown()] on. *)
Definition Kill_rest : Go unit unit :=
  defer_recover (fun _ => ret tt);;     (* "close of closed channel" panic
                                           if Kill() was already called *)
  close_chan ChKill.

(** func (p *Proxy) Kill() *)
Definition Kill {R} : Go R unit :=
  func tt (
    Shutdown;;
    Kill_rest).

(** ** The goroutines of the accept loop (lines 148-203)

    Each goroutine is a program counter; its statements are atomic steps on
    the shared [World]. *)

(** The logger of a connection (lines 169-173): [p.log], with the remote
    address when there is one. *)
Definition conn_logger (remoteAddr : string) : list Field :=
  if bool_decide (remoteAddr = "") then [] else [FRemote remoteAddr].

(** Modelled from the spec: [handleConnection] of the package [proxy] of this
    repository, which is not in [proxy.go].  Spec, section 4.5: "the handler
    owns the wire-protocol loop until the client disconnects, an error
    occurs, or it observes forced".  Seen from the session goroutine a call
    of the handler ends in one of two ways: it returns (for any of these
    reasons), or a panic leaves it. *)
Inductive HandlerOutcome :=
| HandlerReturns
| HandlerPanics (v : PanicVal).

(** The listener closer (listen, lines 136-142). *)
Inductive CloserPc :=
| L_None                    (* not started *)
| L_Wait                    (* 137: <-p.quit *)
| L_Close                   (* 138: err := l.Close() *)
| L_Log (e : GoError)       (* 140: p.log.Info("Error closing listener", ...) *)
| L_Exit.

(** The goroutine that runs [accept] (lines 148-203). *)
Inductive AccPc :=
| A_None                          (* accept has not been called *)
| A_Entry                         (* 149-155: wg, the deferred wait, the gauge *)
| A_Accept                        (* 158: in l.Accept() *)
| A_Select (e : GoError)          (* 160: select, after a failed Accept *)
| A_LogFailed (e : GoError)       (* 164: p.log.Error("Failed to accept ...") *)
| A_WgAdd (c : nat)               (* 177: wg.Add(1) *)
| A_Opened (c : nat)              (* 178: opened("connection_opened", ...) *)
| A_GoSession (c : nat)           (* 179: go func() {...}() *)
| A_GoWatcher (c : nat)           (* 191: go func() {...}() *)
| A_DeferLog (p : option PanicVal)  (* 151: p.log.Info("Waiting for ...") *)
| A_Wait (p : option PanicVal)    (* 152: wg.Wait() *)
| A_Done (p : option PanicVal).   (* accept has returned (None) or panicked *)

(** A goroutine that calls [Shutdown] or [Kill]. *)
Inductive Callee := FnShutdown | FnKill.

Inductive CallerPc :=
| C_Shutdown                (* about to call p.Shutdown() *)
| C_Kill                    (* in Kill(), about to call p.Shutdown() (77) *)
| C_KillRest                (* in Kill(), after p.Shutdown() (79-82) *)
| C_Returned (f : Callee)   (* the call of f has returned *)
| C_Panicked (v : PanicVal).  (* the call has panicked *)

Global Instance SessPc_eq_dec : EqDecision SessPc.
Proof. solve_decision. Defined.
Global Instance WatchPc_eq_dec : EqDecision WatchPc.
Proof. solve_decision. Defined.
Global Instance CloserPc_eq_dec : EqDecision CloserPc.
Proof. solve_decision. Defined.
Global Instance AccPc_eq_dec : EqDecision AccPc.
Proof. solve_decision. Defined.
Global Instance Callee_eq_dec : EqDecision Callee.
Proof. solve_decision. Defined.
Global Instance CallerPc_eq_dec : EqDecision CallerPc.
Proof. solve_decision. Defined.

(** The process: the world and the goroutines that are not of a connection. *)
Record State := {
  world : World;
  acceptor : AccPc;
  closer : CloserPc;
  callers : list CallerPc;
  crashed : option PanicVal     (* an unrecovered panic has ended the process *)
}.

Definition set_world (w : World) (s : State) : State :=
  {| world := w; acceptor := acceptor s; closer := closer s;
     callers := callers s; crashed := crashed s |}.

Definition set_acceptor (a : AccPc) (s : State) : State :=
  {| world := world s; acceptor := a; closer := closer s;
     callers := callers s; crashed := crashed s |}.

Definition set_closer (l : CloserPc) (s : State) : State :=
  {| world := world s; acceptor := acceptor s; closer := l;
     callers := callers s; crashed := crashed s |}.

Definition set_callers (cs : list CallerPc) (s : State) : State :=
  {| world := world s; acceptor := acceptor s; closer := closer s;
     callers := cs; crashed := crashed s |}.

(** A panic that no deferred call of its goroutine recovers ends the
    process. *)
Definition crash (v : PanicVal) (s : State) : State :=
  {| world := world s; acceptor := acceptor s; closer := closer s;
     callers := callers s; crashed := Some v |}.

(** *** The statements of each goroutine

    The statement at a program counter yields the program counter after it. *)

(** Lines 180-188.  The call of the handler (181) is [step_handler]. *)
Definition session_instr (c : nat) (remoteAddr : string) (pc : SessPc)
  : option (Go Empty_set SessPc) :=
  match pc with
  | S_LogAccept => Some (log Info "Accept" (conn_logger remoteAddr);; ret S_Handle)
  | S_Close => Some (_ <- conn_Close c;; ret S_LogClose)
  | S_LogClose => Some (log Info "Close" (conn_logger remoteAddr);; ret S_CloseDone)
  | S_CloseDone => Some (close_chan (ChDone c);; ret S_WgDone)
  | S_WgDone => Some (wg_Done c;; ret S_Closed)
  | S_Closed => Some (closed c;; ret S_Exit)
  | _ => None
  end.

(** Lines 192-200.  The select waits until the case it takes is ready. *)
Inductive SelectCase := CaseDone | CaseKill.

Definition watcher_select (c : nat) (b : SelectCase) : Go Empty_set WatchPc :=
  match b with
  | CaseDone => r <- ready (ChDone c);; if r : bool then ret W_Exit else block
  | CaseKill => r <- ready ChKill;; if r : bool then ret W_Close else block
  end.

Definition watcher_instr (c : nat) (remoteAddr : string) (pc : WatchPc)
  : option (Go Empty_set WatchPc) :=
  match pc with
  | W_Close =>
      Some (err <- conn_Close c;;
            ret (match err with None => W_Warn | Some _ => W_Exit end))
  | W_Warn => Some (log Warn "Force closed connection" (conn_logger remoteAddr);; ret W_Exit)
  | _ => None
  end.

(** Lines 137-141. *)
Definition closer_instr (pc : CloserPc) : option (Go Empty_set CloserPc) :=
  match pc with
  | L_Wait => Some (r <- ready ChQuit;; if r : bool then ret L_Close else block)
  | L_Close =>
      Some (err <- listener_Close;;
            ret (match err with Some e => L_Log e | None => L_Exit end))
  | L_Log e => Some (log Info "Error closing listener" [FError e];; ret L_Exit)
  | _ => None
  end.

(** Lines 149-178 and 191, apart from the call of [l.Accept] (see
    [step_accepted] and [step_accept_failed]). *)
Definition acceptor_instr (pc : AccPc) : option (Go Empty_set AccPc) :=
  match pc with
  | A_Entry =>
      Some (modify (set_wg 0);;
            StatsdBackgroundGauge "open_connections";;
            ret A_Accept)
  | A_Select e =>
      Some (q <- ready ChQuit;;
            ret (if q : bool then A_DeferLog None else A_LogFailed e))
  | A_LogFailed e =>
      Some (log Error "Failed to accept incoming connection" [FError e];; ret A_Accept)
  | A_WgAdd c => Some (wg_Add 1;; ret (A_Opened c))
  | A_Opened c => Some (opened c;; ret (A_GoSession c))
  | A_GoSession c => Some (go (GSession c);; ret (A_GoWatcher c))
  | A_GoWatcher c => Some (go (GWatcher c);; ret A_Accept)
  | A_DeferLog p => Some (log Info "Waiting for open connections" [];; ret (A_Wait p))
  | A_Wait p => Some (wg_Wait;; ret (A_Done p))
  | _ => None
  end.

(** Where a panic of the acceptor takes it: from a call in the loop to the
    deferred call of lines 150-153, from the deferred call out of [accept].
    The [select] and the two [go] statements do not panic. *)
Definition acceptor_panic (v : PanicVal) (pc : AccPc) : option AccPc :=
  match pc with
  | A_Entry | A_Accept | A_LogFailed _ | A_WgAdd _ | A_Opened _ =>
      Some (A_DeferLog (Some v))
  | A_DeferLog _ | A_Wait _ => Some (A_Done (Some v))
  | A_None | A_Select _ | A_GoSession _ | A_GoWatcher _ | A_Done _ => None
  end.

(** Lines 69-83 as steps of the calling goroutine: [Shutdown] touches the
    shared state once, [Kill] once in [p.Shutdown()] and once after it. *)
Definition caller_instr (pc : CallerPc) : option (Go Empty_set CallerPc) :=
  match pc with
  | C_Shutdown => Some (Shutdown;; ret (C_Returned FnShutdown))
  | C_Kill => Some (Shutdown;; ret C_KillRest)
  | C_KillRest => Some (func tt Kill_rest;; ret (C_Returned FnKill))
  | _ => None
  end.

(** *** Steps of the process *)

(** Who moves, and what comes from outside at that step. *)
Inductive Label :=
| LShutdown                           (* a goroutine is about to call p.Shutdown() *)
| LKill                               (* a goroutine is about to call p.Kill() *)
| LCaller (i : nat)                   (* the i-th caller takes a step *)
| LServe                              (* listen comes to the call of accept *)
| LCloser                             (* the listener closer takes a step *)
| LAcceptor                           (* the acceptor takes a step *)
| LAccepted (remoteAddr : string)     (* l.Accept() returns a connection *)
| LAcceptFailed (e : GoError)         (* l.Accept() returns an error *)
| LRuntimeFailure (v : PanicVal)      (* the call the acceptor is at panics *)
| LSession (c : nat)                  (* the session of c takes a step *)
| LHandler (c : nat) (o : HandlerOutcome)  (* the handler call of c ends *)
| LSelect (c : nat) (b : SelectCase)  (* the select of the watcher of c takes b *)
| LWatcher (c : nat).                 (* the watcher of c takes a step *)

Definition step_handler (c : nat) (o : HandlerOutcome) (s : State) : option State :=
  match sess <$> conns (world s) !! c with
  | Some S_Handle =>
      match o with
      | HandlerReturns => Some (set_world (upd_conn c (set_sess S_Close) (world s)) s)
      | HandlerPanics v =>
          Some (crash v (set_world (upd_conn c (set_sess (S_Panicked v)) (world s)) s))
      end
  | _ => None
  end.

Definition step_session (c : nat) (s : State) : option State :=
  cn ← conns (world s) !! c;
  i ← session_instr c (remote cn) (sess cn);
  match exec i (world s) with
  | (Ret pc', w') => Some (set_world (upd_conn c (set_sess pc') w') s)
  | (Panicked v, w') =>
      Some (crash v (set_world (upd_conn c (set_sess (S_Panicked v)) w') s))
  | (NoReturn, _) => None
  end.

Definition step_watcher_instr (c : nat) (i : Go Empty_set WatchPc) (s : State)
  : option State :=
  match exec i (world s) with
  | (Ret pc', w') => Some (set_world (upd_conn c (set_watch pc') w') s)
  | (Panicked v, w') => Some (crash v (set_world w' s))
  | (NoReturn, _) => None
  end.

Definition step_select (c : nat) (b : SelectCase) (s : State) : option State :=
  match watch <$> conns (world s) !! c with
  | Some W_Select => step_watcher_instr c (watcher_select c b) s
  | _ => None
  end.

Definition step_watcher (c : nat) (s : State) : option State :=
  cn ← conns (world s) !! c;
  i ← watcher_instr c (remote cn) (watch cn);
  step_watcher_instr c i s.

Definition step_closer (s : State) : option State :=
  i ← closer_instr (closer s);
  match exec i (world s) with
  | (Ret pc', w') => Some (set_closer pc' (set_world w' s))
  | (Panicked v, w') => Some (crash v (set_world w' s))
  | (NoReturn, _) => None
  end.

Definition step_caller (i : nat) (s : State) : option State :=
  pc ← callers s !! i;
  m ← caller_instr pc;
  match exec m (world s) with
  | (Ret pc', w') => Some (set_callers (<[i := pc']> (callers s)) (set_world w' s))
  | (Panicked v, w') =>
      Some (crash v (set_callers (<[i := C_Panicked v]> (callers s)) (set_world w' s)))
  | (NoReturn, _) => None
  end.

(** A [go] statement of the acceptor starts the goroutine. *)
Definition started (pc : AccPc) (w : World) : World :=
  match pc with
  | A_GoSession c => upd_conn c (set_sess S_LogAccept) w
  | A_GoWatcher c => upd_conn c (set_watch W_Select) w
  | _ => w
  end.

Definition step_acceptor (s : State) : option State :=
  i ← acceptor_instr (acceptor s);
  match exec i (world s) with
  | (Ret pc', w') => Some (set_acceptor pc' (set_world (started (acceptor s) w') s))
  | (Panicked v, w') =>
      pc' ← acceptor_panic v (acceptor s);
      Some (set_acceptor pc' (set_world w' s))
  | (NoReturn, _) => None
  end.

(** Lines 158 and 169-175: [l.Accept()] returns the connection; its logger
    and its [done] channel are made. *)
Definition step_accepted (remoteAddr : string) (s : State) : option State :=
  match acceptor s with
  | A_Accept =>
      if listener (world s) then
        let w := world s in
        let cn := {| remote := remoteAddr; sock_open := true; done := ChOpen;
                     sess := S_None; watch := W_None |} in
        Some (set_acceptor (A_WgAdd (length (conns w)))
               (set_world (set_conns (conns w ++ [cn]) w) s))
      else None
  | _ => None
  end.

Definition step_accept_failed (e : GoError) (s : State) : option State :=
  match acceptor s with
  | A_Accept => Some (set_acceptor (A_Select e) s)
  | _ => None
  end.

Definition step_runtime_failure (v : PanicVal) (s : State) : option State :=
  pc' ← acceptor_panic v (acceptor s);
  Some (set_acceptor pc' s).

(** Listen, lines 129-144: the listener is open, its closer is started and
    [accept] is called.  ([listen] below has the statements before that.) *)
Definition step_serve (s : State) : option State :=
  match acceptor s with
  | A_None =>
      Some (set_acceptor A_Entry (set_closer L_Wait
              (set_world (set_listener true (world s)) s)))
  | _ => None
  end.

(** One step of the process.  A process that an unrecovered panic has ended
    takes no step. *)
Definition step_fn (l : Label) (s : State) : option State :=
  match crashed s with
  | Some _ => None
  | None =>
      match l with
      | LShutdown => Some (set_callers (callers s ++ [C_Shutdown]) s)
      | LKill => Some (set_callers (callers s ++ [C_Kill]) s)
      | LCaller i => step_caller i s
      | LServe => step_serve s
      | LCloser => step_closer s
      | LAcceptor => step_acceptor s
      | LAccepted a => step_accepted a s
      | LAcceptFailed e => step_accept_failed e s
      | LRuntimeFailure v => step_runtime_failure v s
      | LSession c => step_session c s
      | LHandler c o => step_handler c o s
      | LSelect c b => step_select c b s
      | LWatcher c => step_watcher c s
      end
  end.

Definition step (s s' : State) : Prop := ∃ l, step_fn l s = Some s'.

(** A schedule is run label by label; a label that cannot move is passed over. *)
Fixpoint run_schedule (ls : list Label) (s : State) : State :=
  match ls with
  | [] => s
  | l :: ls' =>
      match step_fn l s with
      | Some s' => run_schedule ls' s'
      | None => run_schedule ls' s
      end
  end.

(** The process after [NewProxy]. *)
Definition boot (mask : Z) : State :=
  {| world := NewProxy_world mask; acceptor := A_None; closer := L_None;
     callers := []; crashed := None |}.

Definition reachable (s : State) : Prop := ∃ mask, rtc step (boot mask) s.

(** ** The serving goroutine (lines 65-67 and 85-146) *)

(** What the serving goroutine gets from outside: the results of its calls
    to collaborators, and what the process does while [accept] runs. *)
Record Env := {
  connectPrimary : ConnectResult;     (* of mongo.Connect(..., p.opts, ...) *)
  connectFailover : ConnectResult;    (* of mongo.Connect(..., p.failover, ...) *)
  listenResult : ListenResult;        (* of net.Listen *)
  schedule : list Label               (* the steps of the process during accept *)
}.

(** The process at the call of [accept] (line 144): the closer is started,
    no connection of this call has been accepted yet.  The state has the
    goroutines of this call of [listen] only: a closer that an earlier call
    has left waiting on [quit] (after a crash and a restart) is not part of
    it. *)
Definition accept_state (w : World) : State :=
  {| world := set_conns [] w; acceptor := A_Entry; closer := L_Wait;
     callers := []; crashed := None |}.

(** func (p *Proxy) accept(l net.Listener, m, mf *mongo.Mongo): the call
    returns when the acceptor has returned, panics when it has panicked, and
    has not come back otherwise. *)
Definition accept {R} (sched : list Label) : Go R unit :=
  fun ds w =>
    let s := run_schedule sched (accept_state w) in
    match crashed s, acceptor s with
    | None, A_Done None => (Normal tt, ds, world s)
    | None, A_Done (Some v) => (Panic v, ds, world s)
    | _, _ => (Blocked, ds, world s)
    end.

(** func (p *Proxy) listen(m, mf *mongo.Mongo) error *)
Definition listen {R} (p : Proxy) (env : Env) : Go R error :=
  func None (
    (if Contains (network p) "unix" then
       oldUmask <- Umask 0;;
       defer_call (_ <- Umask oldUmask;; ret tt);;
       if unlink p then Unlink (address p) else ret tt
     else ret tt);;
    err <- net_Listen (listenResult env) (network p) (address p);;
    match err with
    | Some e => return_ (Some e)
    | None =>
        defer_call (_ <- listener_Close;; ret tt);;
        go GListenerCloser;;
        accept (schedule env);;
        return_ None
    end).

(** The deferred function of [run] (lines 86-100), [r] being what
    [recover()] yields. *)
Definition crash_handler (r : option PanicVal) : Go unit unit :=
  match r with
  | Some v =>
      log Error "Crashed" [FPanic v; FStack];;
      Sleep restartSleep;;
      log Info "Restarting" [FSleep restartSleep];;
      go GRestart
  | None => ret tt
  end.

(** The start-up-and-serve sequence: [run] after its first statement
    (lines 102-117). *)
Definition serve (p : Proxy) (env : Env) : Go error error :=
  err <- mongo_Connect Primary (ping p) (connectPrimary env);;
  match err with
  | Some e => return_ (Some e)
  | None =>
      defer_call (mongo_Close Primary);;
      (if failover p then
         err <- mongo_Connect Failover (ping p) (connectFailover env);;
         match err with
         | Some e => return_ (Some e)
         | None => defer_call (mongo_Close Failover)
         end
       else ret tt);;
      r <- listen p env;;
      return_ r
  end.

(** func (p *Proxy) run() error *)
Definition run {R} (p : Proxy) (env : Env) : Go R error :=
  func None (
    defer_recover crash_handler;;
    serve p env).

(** func (p *Proxy) Run() error *)
Definition Run {R} (p : Proxy) (env : Env) : Go R error := run p env.

(** The goroutine started by the deferred function of [run] (lines 93-98). *)
Definition restart (p : Proxy) (env : Env) : Go Empty_set unit :=
  err <- run p env;;
  match err with
  | Some e => log Error "Error restarting" [FError e]
  | None => ret tt
  end.

(** ** Notions used to state the properties *)

(** The effect of a [close(ch)] whose panic is recovered: a channel that is
    open is closed, a closed one stays as it is. *)
Definition signalled (ch : Chan) (w : World) : World :=
  match chan_state ch w with
  | Some ChOpen => emit (EvChanClose ch) (set_chan ch ChClosed w)
  | _ => w
  end.

(** The events a process emits while [accept] runs. *)
Definition accept_event (e : Event) : bool :=
  match e with
  | EvLog _ _ _ | EvListenerClose | EvGauge _ | EvChanClose _
  | EvWgAdd _ | EvWgDone _ | EvWgWait | EvOpened _ | EvClosed _
  | EvConnClose _ _ | EvGo (GSession _) | EvGo (GWatcher _) => true
  | _ => false
  end.

(** The events a call has added to the trace. *)
Definition new_events (w w' : World) : list Event :=
  drop (length (trace w)) (trace w').

(** Event [a] comes before every [b] in [t]. *)
Definition before (a b : Event) (t : list Event) : Prop :=
  ∀ pre post, t = pre ++ b :: post → a ∈ pre.

(** The number of [close(ch)] in a trace that closed [ch]. *)
Definition closes (ch : Chan) (t : list Event) : nat :=
  count_occ Event_eq_dec t (EvChanClose ch).

(** What holds of the two signals and of the callers in every state. *)
Definition signals_inv (s : State) : Prop :=
  closes ChQuit (trace (world s)) = (if decide (quit (world s) = ChClosed) then 1 else 0)
  ∧ closes ChKill (trace (world s)) = (if decide (kill (world s) = ChClosed) then 1 else 0)
  ∧ (kill (world s) = ChClosed → quit (world s) = ChClosed)
  ∧ (∀ i pc, callers s !! i = Some pc →
       match pc with
       | C_Shutdown | C_Kill => True
       | C_KillRest | C_Returned FnShutdown => quit (world s) = ChClosed
       | C_Returned FnKill => quit (world s) = ChClosed ∧ kill (world s) = ChClosed
       | C_Panicked _ => False
       end).

(** A caller that has not come to the end of its call. *)
Definition calling (pc : CallerPc) : Prop :=
  pc = C_Shutdown ∨ pc = C_Kill ∨ pc = C_KillRest.

(** The calls of a list, one after the other in one goroutine. *)
Fixpoint call_all (fs : list Callee) : Go Empty_set unit :=
  match fs with
  | [] => ret tt
  | FnShutdown :: fs' => Shutdown;; call_all fs'
  | FnKill :: fs' => Kill;; call_all fs'
  end.

(** A process in which [Kill] is called before anything else, and the call
    is run to its end. *)
Definition killed_process : State :=
  run_schedule [LKill; LCaller 0; LCaller 0] (boot 18).

(** A process in which two calls of [Shutdown] and two calls of [Kill]
    interleave and all come to their end. *)
Definition signalled_process : State :=
  run_schedule
    [LShutdown; LKill; LKill; LShutdown;
     LCaller 1; LCaller 0; LCaller 2; LCaller 2; LCaller 1; LCaller 3]
    (boot 18).

(** The parts of a call of [listen], for stating what it does: the world
    when [net.Listen] is called, the world when [accept] is called, and the
    effect of the two deferred calls. *)
Definition at_bind (p : Proxy) (w : World) : World :=
  if Contains (network p) "unix" then
    let w1 := emit (EvUmask 0) (set_umask 0 w) in
    if unlink p then emit (EvUnlink (address p)) w1 else w1
  else w.

Definition after_bind (p : Proxy) (w : World) : World :=
  emit (EvListen (network p) (address p)) (at_bind p w).

Definition at_accept (p : Proxy) (w : World) : World :=
  emit (EvGo GListenerCloser) (set_listener true (after_bind p w)).

Definition listener_closed (w : World) : World :=
  emit EvListenerClose (set_listener false w).

Definition mask_restored (p : Proxy) (w w' : World) : World :=
  if Contains (network p) "unix" then emit (EvUmask (umask w)) (set_umask (umask w) w')
  else w'.

(** The process when the call of [accept] in [listen] ends, or when the
    schedule of the environment is used up. *)
Definition served (p : Proxy) (env : Env) (w : World) : State :=
  run_schedule (schedule env) (accept_state (at_accept p w)).

(** The events of [listen] before [net.Listen] and of its deferred
    [syscall.Umask(oldUmask)]. *)
Definition setup_events (p : Proxy) : list Event :=
  if Contains (network p) "unix" then
    EvUmask 0 :: (if unlink p then [EvUnlink (address p)] else [])
  else [].

Definition restore_events (p : Proxy) (w : World) : list Event :=
  if Contains (network p) "unix" then [EvUmask (umask w)] else [].

(** A call that has come back. *)
Definition came_back {A} (r : Res A) : bool :=
  match r with
  | NoReturn => false
  | _ => true
  end.

(** Events on the file-creation mask or on the path of the socket. *)
Definition mask_or_path_event (e : Event) : bool :=
  match e with
  | EvUmask _ | EvUnlink _ => true
  | _ => false
  end.

(** The acceptor leaves its loop by [return] only with [quit] closed. *)
Definition drain_inv (s : State) : Prop :=
  match acceptor s with
  | A_DeferLog None | A_Wait None | A_Done None => quit (world s) = ChClosed
  | _ => True
  end.

(** Example configurations and environments. *)
Definition unix_proxy : Proxy :=
  {| network := "unix"; address := "/var/tmp/mongobetween.sock"; unlink := true;
     ping := true; failover := true |}.

Definition tcp_proxy : Proxy :=
  {| network := "tcp4"; address := ":27016"; unlink := false;
     ping := false; failover := false |}.

(** One connection is accepted and its session is in the handler. *)
Definition one_client : list Label :=
  [LAcceptor; LAccepted "10.0.0.7:50312"; LAcceptor; LAcceptor; LAcceptor;
   LAcceptor; LSession 0].

(** The client goes away, then [Shutdown] is called and everything ends. *)
Definition graceful_end : list Label :=
  [LHandler 0 HandlerReturns; LSession 0; LSession 0; LSession 0; LSession 0;
   LSession 0; LSelect 0 CaseDone;
   LShutdown; LCaller 0; LCloser; LCloser;
   LAcceptFailed "use of closed network connection";
   LAcceptor; LAcceptor; LAcceptor].

Definition serving_env : Env :=
  {| connectPrimary := ConnectOk; connectFailover := ConnectOk;
     listenResult := ListenOk; schedule := one_client |}.

Definition graceful_env : Env :=
  {| connectPrimary := ConnectOk; connectFailover := ConnectOk;
     listenResult := ListenOk; schedule := one_client ++ graceful_end |}.

Definition bind_failure_env : Env :=
  {| connectPrimary := ConnectOk; connectFailover := ConnectOk;
     listenResult := ListenErr "bind: address already in use"; schedule := [] |}.

(** The effect of the deferred function of [run] on a panic [v]. *)
Definition restart_events (v : PanicVal) : list Event :=
  [EvLog Error "Crashed" [FPanic v; FStack];
   EvSleep restartSleep;
   EvLog Info "Restarting" [FSleep restartSleep];
   EvGo GRestart].

Definition emit_all (evs : list Event) (w : World) : World :=
  foldl (λ w e, emit e w) w evs.

(** The end of [run] after a call of [listen] that was made with the
    upstreams [ups] established (newest first). *)
Definition run_end (ups : list Upstream) (lr : Res error * World) : Res error * World :=
  match lr with
  | (Ret r, w') => (Ret r, emit_all (EvMongoClose <$> ups) w')
  | (Panicked v, w') =>
      (Ret None, emit_all (restart_events v) (emit_all (EvMongoClose <$> ups) w'))
  | (NoReturn, w') => (NoReturn, w')
  end.

(** The events that mark a restart. *)
Definition restart_event (e : Event) : bool :=
  match e with
  | EvSleep _ | EvGo GRestart => true
  | _ => false
  end.

(** The events of [listen]. *)
Definition listen_event (e : Event) : bool :=
  match e with
  | EvUmask _ | EvUnlink _ | EvListen _ _ | EvGo GListenerCloser => true
  | _ => accept_event e
  end.

(** The end of the start-up-and-serve sequence after a call of [listen]. *)
Definition serve_end (ups : list Upstream) (lr : Res error * World) : Res error * World :=
  match lr with
  | (Ret r, w') => (Ret r, emit_all (EvMongoClose <$> ups) w')
  | (Panicked v, w') => (Panicked v, emit_all (EvMongoClose <$> ups) w')
  | (NoReturn, w') => (NoReturn, w')
  end.

(** Whether [run] has established the upstream [u]. *)
Definition connected (r : ConnectResult) : bool :=
  match r with
  | ConnectOk => true
  | _ => false
  end.

Definition established (p : Proxy) (env : Env) (u : Upstream) : bool :=
  match u with
  | Primary => connected (connectPrimary env)
  | Failover =>
      connected (connectPrimary env) && failover p && connected (connectFailover env)
  end.

(** The number of [m.Close()] of upstream [u] in a list of events. *)
Definition releases (u : Upstream) (t : list Event) : nat :=
  count_occ Event_eq_dec t (EvMongoClose u).

Definition crash_env : Env :=
  {| connectPrimary := ConnectOk; connectFailover := ConnectOk;
     listenResult := ListenOk;
     schedule := one_client
                 ++ [LRuntimeFailure "runtime error: index out of range";
                     LHandler 0 HandlerReturns; LSession 0; LSession 0; LSession 0;
                     LSession 0; LSession 0; LAcceptor; LAcceptor] |}.

Definition failover_failure_env : Env :=
  {| connectPrimary := ConnectOk;
     connectFailover := ConnectErr "server selection timeout";
     listenResult := ListenOk; schedule := [] |}.

Definition primary_failure_env : Env :=
  {| connectPrimary := ConnectErr "server selection timeout";
     connectFailover := ConnectOk;
     listenResult := ListenOk; schedule := [] |}.

(** *** The connections *)

(** What holds of a connection and its goroutines: the [done] channel is
    closed by the session only, after it has closed the socket. *)
Definition conn_ok (cn : Conn) : Prop :=
  match sess cn with
  | S_None => done cn = ChOpen ∧ watch cn = W_None
  | S_LogAccept | S_Handle | S_Close => done cn = ChOpen
  | S_LogClose | S_CloseDone => done cn = ChOpen ∧ sock_open cn = false
  | S_WgDone | S_Closed | S_Exit => done cn = ChClosed ∧ sock_open cn = false
  | S_Panicked _ => True
  end.

(** The connection the acceptor is at has no goroutine yet. *)
Definition acceptor_ok (a : AccPc) (cs : list Conn) : Prop :=
  match a with
  | A_None | A_Entry => cs = []
  | A_WgAdd c | A_Opened c | A_GoSession c =>
      ∃ cn, cs !! c = Some cn ∧ sess cn = S_None
  | A_GoWatcher c => ∃ cn, cs !! c = Some cn ∧ watch cn = W_None ∧ sess cn ≠ S_None
  | _ => True
  end.

(** What a session that has been started and has not yet called
    [wg.Done()], or [closed(...)], adds to the WaitGroup and to the gauge. *)
Definition wg_live (cn : Conn) : nat :=
  match sess cn with
  | S_None | S_Closed | S_Exit => 0
  | _ => 1
  end.

Definition gauge_live (cn : Conn) : nat :=
  match sess cn with
  | S_None | S_Exit => 0
  | _ => 1
  end.

(** And what the acceptor has added for the session it is about to start. *)
Definition wg_pending (a : AccPc) : nat :=
  match a with
  | A_Opened _ | A_GoSession _ => 1
  | _ => 0
  end.

Definition gauge_pending (a : AccPc) : nat :=
  match a with
  | A_GoSession _ => 1
  | _ => 0
  end.

Definition conns_inv (s : State) : Prop :=
  Forall conn_ok (conns (world s))
  ∧ acceptor_ok (acceptor s) (conns (world s))
  ∧ (Z.of_nat (sum_list_with wg_live (conns (world s)) + wg_pending (acceptor s))
     ≤ wg (world s))%Z
  ∧ gauge (world s)
    = Z.of_nat (sum_list_with gauge_live (conns (world s)) + gauge_pending (acceptor s))
  ∧ (∀ c cn v, conns (world s) !! c = Some cn → sess cn = S_Panicked v →
       crashed s ≠ None).

(** No session is running: the session of every accepted connection has
    ended or has not been started. *)
Definition no_session_running (s : State) : Prop :=
  ∀ c cn, conns (world s) !! c = Some cn → sess cn = S_None ∨ sess cn = S_Exit.

(** The acceptor is between [opened(...)] (line 178) and the [go] statement
    that starts the session (line 179). *)
Definition starting (s : State) : bool :=
  match acceptor s with
  | A_GoSession _ => true
  | _ => false
  end.

(** The events of the life of the session of connection [c], in the order
    of the source: the gauge is counted up (178), the session is started
    (179), it closes [done] (186), calls [wg.Done()] (187) and counts the
    gauge down (188). *)
Definition session_events (c : nat) : list Event :=
  [EvOpened c; EvGo (GSession c); EvChanClose (ChDone c); EvWgDone c; EvClosed c].

(** The connection whose life an event belongs to. *)
Definition ev_session (e : Event) : option nat :=
  match e with
  | EvOpened c | EvGo (GSession c) | EvChanClose (ChDone c) | EvWgDone c
  | EvClosed c => Some c
  | _ => None
  end.

(** The events of the life of the session of [c] in a trace. *)
Definition session_trace (c : nat) (t : list Event) : list Event :=
  filter (λ e, ev_session e = Some c) t.

(** How far the life of the session of a connection has come. *)
Definition session_rank (a : AccPc) (c : nat) (pc : SessPc) (n : nat) : Prop :=
  match pc with
  | S_None => n = (if decide (a = A_GoSession c) then 1 else 0)
  | S_LogAccept | S_Handle | S_Close | S_LogClose | S_CloseDone => n = 2
  | S_WgDone => n = 3
  | S_Closed => n = 4
  | S_Exit => n = 5
  | S_Panicked _ => 2 ≤ n ≤ 4
  end.

(** In every state the events of the life of a session that have happened
    are the first ones of [session_events], as many as the session has come
    to. *)
Definition events_inv (s : State) : Prop :=
  ∀ c, ∃ n,
    session_trace c (trace (world s)) = take n (session_events c)
    ∧ match conns (world s) !! c with
      | Some cn => session_rank (acceptor s) c (sess cn) n
      | None => n = 0
      end.

(** A session that is past its [c.Close()] has a close of the socket behind
    it. *)
Definition past_close (pc : SessPc) : bool :=
  match pc with
  | S_LogClose | S_CloseDone | S_WgDone | S_Closed | S_Exit => true
  | _ => false
  end.

Definition close_inv (s : State) : Prop :=
  (∀ c cn, conns (world s) !! c = Some cn → past_close (sess cn) = true →
     ∃ ok, EvConnClose c ok ∈ trace (world s))
  ∧ (∀ c pre post, trace (world s) = pre ++ EvChanClose (ChDone c) :: post →
       ∃ ok, EvConnClose c ok ∈ pre).

(** A process that serves one connection, its session being in the
    handler; and the same process after a panic has left the handler. *)
Definition session_process : State :=
  run_schedule (LServe :: one_client) (boot 18).

Definition handler_panic : PanicVal :=
  "runtime error: invalid memory address or nil pointer dereference".

Definition handler_panic_process : State :=
  run_schedule [LHandler 0 (HandlerPanics handler_panic)] session_process.

(** The session of [c] is at [pc], and a step of it emits [e] and takes
    the connection [cn] to [cn']. *)
Definition session_step (s : State) (c : nat) (e : Event) (cn' : Conn) : Prop :=
  ∃ s', step_fn (LSession c) s = Some s'
        ∧ crashed s' = None
        ∧ trace (world s') = trace (world s) ++ [e]
        ∧ conns (world s') !! c = Some cn'.

(** The same process when the handler has returned and the session has
    closed the socket and logged: it is about to close [done]. *)
Definition closing_process : State :=
  run_schedule [LHandler 0 HandlerReturns; LSession 0; LSession 0] session_process.

Definition closing_conn : Conn :=
  {| remote := "10.0.0.7:50312"; sock_open := false; done := ChOpen;
     sess := S_CloseDone; watch := W_Select |}.

(** *** The watcher of a connection *)










(** *** The gauge of open connections *)

(** The number of calls of [opened] and of [closed] for connection [c], and
    of starts of its session. *)
Definition opened_count (c : nat) (t : list Event) : nat :=
  count_occ Event_eq_dec t (EvOpened c).

Definition closed_count (c : nat) (t : list Event) : nat :=
  count_occ Event_eq_dec t (EvClosed c).

Definition started_count (c : nat) (t : list Event) : nat :=
  count_occ Event_eq_dec t (EvGo (GSession c)).

(** The process when the one connection has been served and closed, and
    its watcher has ended. *)
Definition served_process : State :=
  run_schedule
    [LHandler 0 HandlerReturns; LSession 0; LSession 0; LSession 0; LSession 0;
     LSession 0; LSelect 0 CaseDone]
    session_process.

(** The bind panics. *)
Definition bind_panic_env : Env :=
  {| connectPrimary := ConnectOk; connectFailover := ConnectOk;
     listenResult := ListenPanic "runtime error: invalid memory address or nil pointer dereference";
     schedule := [] |}.

(** *** The sessions the acceptor waits for *)

(** While the acceptor is in its loop every accepted connection but the one
    it is at has had its session started; when [accept] has returned, by
    [return] and past its [wg.Wait()], every session has called
    [wg.Done()]. *)
Definition started_inv (s : State) : Prop :=
  ∀ c cn, conns (world s) !! c = Some cn →
    match acceptor s with
    | A_None | A_Entry => True
    | A_WgAdd c' | A_Opened c' | A_GoSession c' => sess cn = S_None → c = c'
    | A_DeferLog (Some _) | A_Wait (Some _) | A_Done (Some _) => True
    | A_Done None => wg_live cn = 0 ∧ sess cn ≠ S_None
    | _ => sess cn ≠ S_None
    end.

(** The process when the one connection has been served, [Shutdown] has
    been called and [accept] has returned. *)
Definition ended_process : State :=
  run_schedule graceful_end session_process.

(** *** The socket of a connection *)

(** The closes of the socket of [c] that found it open. *)
Definition socket_closes (c : nat) (t : list Event) : nat :=
  count_occ Event_eq_dec t (EvConnClose c true).

(** Whether the socket of [c] has been closed. *)
Definition socket_closed (c : nat) (w : World) : nat :=
  match conns w !! c with
  | Some cn => if sock_open cn then 0 else 1
  | None => 0
  end.

Definition sock_inv (s : State) : Prop :=
  ∀ c, socket_closes c (trace (world s)) = socket_closed c (world s).

(** [Kill] is called while the session of the one connection is in the
    handler, and the watcher closes the socket; the handler then returns and
    the session runs to its end. *)
Definition force_closed_process : State :=
  run_schedule
    [LKill; LCaller 0; LCaller 0; LSelect 0 CaseKill; LWatcher 0; LWatcher 0;
     LHandler 0 HandlerReturns; LSession 0; LSession 0; LSession 0; LSession 0;
     LSession 0]
    session_process.

(** *** The listener closer *)

(** The number of [l.Close()] in a trace. *)
Definition listener_closes (t : list Event) : nat :=
  count_occ Event_eq_dec t EvListenerClose.

(** The closer closes the listener once, after [quit] has been closed, and
    its [l.Close()] finds the listener open. *)
Definition closer_inv (s : State) : Prop :=
  (acceptor s = A_None → closer s = L_None)
  ∧ match closer s with
  | L_None => acceptor s = A_None ∧ listener_closes (trace (world s)) = 0
  | L_Wait => listener (world s) = true ∧ listener_closes (trace (world s)) = 0
  | L_Close =>
      quit (world s) = ChClosed ∧ listener (world s) = true
      ∧ listener_closes (trace (world s)) = 0
  | L_Log _ => False
  | L_Exit =>
      quit (world s) = ChClosed ∧ listener (world s) = false
      ∧ listener_closes (trace (world s)) = 1
  end.

(** [Shutdown] is called while the one connection is served, and the
    closer has closed the listener; the acceptor is still at [l.Accept()]. *)
Definition shutdown_process : State :=
  run_schedule [LShutdown; LCaller 0; LCloser; LCloser] session_process.

(** *** Nothing is reopened *)

(** The state [s'] is later than [s]: the closed channels and sockets of
    [s] are closed in [s'], its connections are still there, and its trace
    is the beginning of that of [s']. *)
Definition later (s s' : State) : Prop :=
  (quit (world s) = ChClosed → quit (world s') = ChClosed)
  ∧ (kill (world s) = ChClosed → kill (world s') = ChClosed)
  ∧ trace (world s) `prefix_of` trace (world s')
  ∧ ∀ c cn, conns (world s) !! c = Some cn →
      ∃ cn', conns (world s') !! c = Some cn'
             ∧ remote cn' = remote cn
             ∧ (done cn = ChClosed → done cn' = ChClosed)
             ∧ (sock_open cn = false → sock_open cn' = false).

(** *** The end of a session *)

(** The statement after [pc] in the session, from the return of the
    handler on (lines 183-188). *)
Definition session_next (pc : SessPc) : option SessPc :=
  match pc with
  | S_Close => Some S_LogClose
  | S_LogClose => Some S_CloseDone
  | S_CloseDone => Some S_WgDone
  | S_WgDone => Some S_Closed
  | S_Closed => Some S_Exit
  | _ => None
  end.

(** The process when the handler of the one connection has returned. *)
Definition returned_process : State :=
  run_schedule [LHandler 0 HandlerReturns] session_process.

(** *** Runtime failures during serving *)

(** The call of [opened(...)] for the first connection panics, after
    [wg.Add(1)] (line 177) and before the session is started (line 179); the
    acceptor then runs the deferred call of [accept]. *)
Definition gauge_panic : PanicVal := "runtime error: index out of range".

Definition gauge_panic_env : Env :=
  {| connectPrimary := ConnectOk; connectFailover := ConnectOk;
     listenResult := ListenOk;
     schedule := [LAcceptor; LAccepted "10.0.0.7:50312"; LAcceptor;
                  LRuntimeFailure gauge_panic; LAcceptor; LAcceptor] |}.

(** A panic leaves the handler of the one connection. *)
Definition handler_panic_env : Env :=
  {| connectPrimary := ConnectOk; connectFailover := ConnectOk;
     listenResult := ListenOk;
     schedule := one_client ++ [LHandler 0 (HandlerPanics handler_panic)] |}.

(** The world in which [run] calls [listen], for [tcp_proxy]. *)
Definition tcp_listen_world : World :=
  emit (EvConnect Primary false) (NewProxy_world 18).

(** The process of [gauge_panic_env] at the end of its schedule. *)
Definition stuck_process : State :=
  served tcp_proxy gauge_panic_env tcp_listen_world.

(** The acceptor is in the [wg.Wait()] of its deferred call after a panic,
    the counter is positive and no session has been started. *)
Definition waiting_inv (v : PanicVal) (s : State) : Prop :=
  acceptor s = A_Wait (Some v)
  ∧ (0 < wg (world s))%Z
  ∧ ∀ c cn, conns (world s) !! c = Some cn → sess cn = S_None.

(** The events of the crash handler of [run]. *)
Definition crash_event (e : Event) : bool :=
  match e with
  | EvLog Error msg _ => bool_decide (msg = "Crashed")
  | EvSleep _ | EvGo GRestart => true
  | _ => false
  end.

(** A label that is not a runtime failure of a call of the acceptor. *)
Definition no_failure (l : Label) : Prop :=
  ∀ v, l ≠ LRuntimeFailure v.

(** The process when the first connection has been accepted and counted by
    [opened(...)], its session not yet started. *)
Definition counted_process : State :=
  run_schedule [LServe; LAcceptor; LAccepted "10.0.0.7:50312"; LAcceptor; LAcceptor]
    (boot 18).

(** * Properties *)

(** ** The monad and the signals *)

Lemma Shutdown_eq {R} ds w :
  @Shutdown R ds w = (Normal tt, ds, signalled ChQuit w).
Proof.
  unfold Shutdown, signalled, func, call. cbn.
  destruct (quit w); reflexivity.
Qed.

Lemma Kill_rest_eq {R} ds w :
  @func unit R tt Kill_rest ds w = (Normal tt, ds, signalled ChKill w).
Proof.
  unfold Kill_rest, signalled, func, call. cbn.
  destruct (kill w); reflexivity.
Qed.

Lemma Kill_eq {R} ds w :
  @Kill R ds w = (Normal tt, ds, signalled ChKill (signalled ChQuit w)).
Proof.
  unfold Kill, func, call, bind. rewrite Shutdown_eq.
  unfold Kill_rest, signalled. cbn.
  destruct (quit w); cbn; destruct (kill w); reflexivity.
Qed.

(** [Kill] is [Shutdown] followed by the rest of [Kill], as the steps of a
    caller have it. *)
Lemma Kill_steps w :
  exec Kill w = exec (Shutdown;; func tt Kill_rest) w.
Proof.
  unfold exec, bind. rewrite Kill_eq, Shutdown_eq, Kill_rest_eq. reflexivity.
Qed.

Lemma signalled_quit w :
  quit (signalled ChQuit w) = ChClosed ∧ kill (signalled ChQuit w) = kill w.
Proof. unfold signalled; cbn. destruct (quit w) eqn:E; cbn; auto. Qed.

Lemma signalled_kill w :
  kill (signalled ChKill w) = ChClosed ∧ quit (signalled ChKill w) = quit w.
Proof. unfold signalled; cbn. destruct (kill w) eqn:E; cbn; auto. Qed.

Lemma set_chan_trace ch st w : trace (set_chan ch st w) = trace w.
Proof. by destruct ch. Qed.

Lemma upd_conn_trace c f w : trace (upd_conn c f w) = trace w.
Proof. done. Qed.

(** ** Case analysis of a step *)

Ltac go_unfold H :=
  cbv beta iota zeta delta
    [step_caller step_session step_handler step_select step_watcher step_watcher_instr
     step_closer step_acceptor step_accepted step_accept_failed step_runtime_failure
     step_serve started acceptor_panic
     session_instr watcher_instr watcher_select closer_instr acceptor_instr caller_instr
     exec bind ret get modify log close_chan ready conn_Close wg_Add wg_Done wg_Wait
     opened closed go block panic return_ StatsdBackgroundGauge listener_Close
     upd_conn set_chan mbind option_bind] in H;
  rewrite ?Shutdown_eq, ?Kill_rest_eq in H.

Ltac go_unfold_goal :=
  cbv beta iota zeta delta
    [step_caller step_session step_handler step_select step_watcher step_watcher_instr
     step_closer step_acceptor step_accepted step_accept_failed step_runtime_failure
     step_serve started acceptor_panic
     session_instr watcher_instr watcher_select closer_instr acceptor_instr caller_instr
     exec bind ret get modify log close_chan ready conn_Close wg_Add wg_Done wg_Wait
     opened closed go block panic return_ StatsdBackgroundGauge listener_Close
     upd_conn set_chan mbind option_bind];
  rewrite ?Shutdown_eq, ?Kill_rest_eq.

Ltac case_step H :=
  match type of H with
  | None = Some _ => discriminate H
  | Some _ = Some _ => apply Some_inj in H; subst
  | context [match ?x with _ => _ end] =>
      match x with
      | context [match _ with _ => _ end] => fail 1
      | _ => first [is_var x; destruct x | let E := fresh "E" in destruct x eqn:E]
      end
  end.

(** Splits a hypothesis [H : step_fn l s = Some s'] into one goal for each
    statement of each goroutine, with [s'] given in terms of [s]. *)
Ltac step_cases H :=
  unfold step_fn in H;
  let Hc := fresh "Hlive" in
  destruct (crashed _) eqn:Hc; [discriminate H|];
  cbv beta iota in H;
  try match type of H with
      | context [match ?l with _ => _ end] => is_var l; destruct l
      end;
  go_unfold H;
  repeat (case_step H; try go_unfold H).

Ltac step_simpl :=
  cbn [world acceptor closer callers crashed
       set_world set_acceptor set_closer set_callers crash
       quit kill umask listener wg gauge conns trace
       emit set_quit set_kill set_umask set_listener set_wg set_gauge set_conns
       upd_conn].

Ltac step_simpl_in H :=
  cbn [world acceptor closer callers crashed
       set_world set_acceptor set_closer set_callers crash
       quit kill umask listener wg gauge conns trace
       emit set_quit set_kill set_umask set_listener set_wg set_gauge set_conns
       upd_conn] in H.

Lemma step_umask l s s' :
  step_fn l s = Some s' → umask (world s') = umask (world s).
Proof.
  intros H. step_cases H; try reflexivity.
  all: unfold signalled; cbn; repeat case_match; reflexivity.
Qed.

Lemma signalled_trace ch w :
  ∃ evs, trace (signalled ch w) = trace w ++ evs
         ∧ forallb accept_event evs = true.
Proof.
  unfold signalled. destruct (chan_state ch w) as [[|]|].
  - exists [EvChanClose ch]. split; [|done].
    cbn. by rewrite set_chan_trace.
  - exists []. by rewrite app_nil_r.
  - exists []. by rewrite app_nil_r.
Qed.

Lemma step_trace l s s' :
  step_fn l s = Some s' →
  ∃ evs, trace (world s') = trace (world s) ++ evs
         ∧ forallb accept_event evs = true.
Proof.
  intros H. step_cases H; step_simpl.
  all: try apply signalled_trace.
  all: first
    [ exists []; split; [by rewrite app_nil_r | done]
    | eexists [_]; split; [reflexivity | done] ].
Qed.

Lemma step_reachable s s' : reachable s → step s s' → reachable s'.
Proof. intros [m Hm] Hs. exists m. by eapply rtc_r. Qed.

Lemma run_schedule_rtc ls s : rtc step s (run_schedule ls s).
Proof.
  revert s. induction ls as [|l ls IH]; intros s; cbn; [done|].
  destruct (step_fn l s) as [s'|] eqn:E; [|done].
  eapply rtc_l; [by exists l | done].
Qed.

Lemma run_schedule_reachable ls s : reachable s → reachable (run_schedule ls s).
Proof. intros [m Hm]. exists m. etrans; [done | apply run_schedule_rtc]. Qed.

Lemma boot_reachable mask : reachable (boot mask).
Proof. by exists mask. Qed.

(** An invariant of the steps holds along every run. *)
Lemma rtc_step_invariant (P : State → Prop) s s' :
  (∀ l s s', P s → step_fn l s = Some s' → P s') →
  rtc step s s' → P s → P s'.
Proof.
  intros Hstep Hrtc. induction Hrtc as [|s1 s2 s3 [l Hl] _ IH]; [done|].
  intros HP. apply IH. by eapply Hstep.
Qed.

Lemma rtc_step_umask s s' : rtc step s s' → umask (world s') = umask (world s).
Proof.
  intros H. induction H as [|s1 s2 s3 [l Hl] _ IH]; [done|].
  rewrite IH. by eapply step_umask.
Qed.

Lemma rtc_step_trace s s' :
  rtc step s s' →
  ∃ evs, trace (world s') = trace (world s) ++ evs
         ∧ forallb accept_event evs = true.
Proof.
  intros H. induction H as [|s1 s2 s3 [l Hl] _ (evs2 & E2 & F2)].
  - exists []. by rewrite app_nil_r.
  - destruct (step_trace _ _ _ Hl) as (evs1 & E1 & F1).
    exists (evs1 ++ evs2). rewrite E2, E1, <- app_assoc. split; [done|].
    rewrite forallb_app. by rewrite F1, F2.
Qed.

(** ** The signals *)

Lemma closes_app ch t1 t2 : closes ch (t1 ++ t2) = closes ch t1 + closes ch t2.
Proof. apply count_occ_app. Qed.

Lemma signalled_closes ch ch' w :
  chan_state ch w ≠ None →
  closes ch' (trace (signalled ch w)) =
    closes ch' (trace w)
    + (if decide (ch' = ch ∧ chan_state ch w = Some ChOpen) then 1 else 0).
Proof.
  intros Hsome. unfold signalled.
  destruct (chan_state ch w) as [[|]|] eqn:E; [| |done].
  - cbn [emit trace]. rewrite set_chan_trace, closes_app. f_equal.
    unfold closes. cbn [count_occ].
    destruct (Event_eq_dec (EvChanClose ch) (EvChanClose ch')) as [Heq|Hne];
      case_decide; naive_solver.
  - case_decide; [naive_solver | lia].
Qed.

(** The steps of a caller. *)
Lemma step_caller_cases i s s' :
  step_fn (LCaller i) s = Some s' →
  ∃ pc pc' ch,
    callers s !! i = Some pc
    ∧ s' = set_callers (<[i := pc']> (callers s)) (set_world (signalled ch (world s)) s)
    ∧ ((pc = C_Shutdown ∧ pc' = C_Returned FnShutdown ∧ ch = ChQuit)
       ∨ (pc = C_Kill ∧ pc' = C_KillRest ∧ ch = ChQuit)
       ∨ (pc = C_KillRest ∧ pc' = C_Returned FnKill ∧ ch = ChKill)).
Proof.
  intros H. step_cases H; eauto 10.
Qed.

(** A step of another goroutine leaves the signals as they are. *)
Lemma step_signals_frame l s s' :
  step_fn l s = Some s' → (∀ i, l ≠ LCaller i) →
  quit (world s') = quit (world s)
  ∧ kill (world s') = kill (world s)
  ∧ closes ChQuit (trace (world s')) = closes ChQuit (trace (world s))
  ∧ closes ChKill (trace (world s')) = closes ChKill (trace (world s))
  ∧ (callers s' = callers s
     ∨ callers s' = callers s ++ [C_Shutdown]
     ∨ callers s' = callers s ++ [C_Kill]).
Proof.
  intros H Hl. step_cases H; try (exfalso; eapply Hl; reflexivity).
  all: step_simpl; rewrite ?closes_app; cbn; repeat split; (lia || eauto).
Qed.

Lemma boot_signals_inv mask : signals_inv (boot mask).
Proof.
  split_and!; cbn; try done.
Qed.

Lemma step_signals_inv l s s' :
  signals_inv s → step_fn l s = Some s' → signals_inv s'.
Proof.
  intros (Hq & Hk & Himp & Hcallers) H.
  assert ((∃ i, l = LCaller i) ∨ ¬ (∃ i, l = LCaller i)) as [[i ->]|Hl]
    by (destruct l; eauto; right; intros [? ?]; discriminate).
  - apply step_caller_cases in H as (pc & pc' & ch & Hpc & -> & Hcase).
    pose proof (Hcallers _ _ Hpc) as Hpc_inv.
    assert (chan_state ch (world s) ≠ None) as Hch by (destruct Hcase as [?|[?|?]]; naive_solver).
    unfold signals_inv. cbn [world callers set_callers set_world].
    rewrite !signalled_closes by done.
    destruct (signalled_quit (world s)) as [Q1 Q2].
    destruct (signalled_kill (world s)) as [K1 K2].
    assert (∀ j pcj, <[i:=pc']> (callers s) !! j = Some pcj →
              (j = i ∧ pcj = pc') ∨ callers s !! j = Some pcj) as Hlook.
    { intros j pcj Hj. destruct (decide (i = j)) as [->|Hne].
      - rewrite list_lookup_insert_eq in Hj by (by eapply lookup_lt_Some).
        left. naive_solver.
      - rewrite list_lookup_insert_ne in Hj by done. by right. }
    assert (∀ j pcj, callers s !! j = Some pcj → quit (world s) = ChClosed →
              kill (world s) = ChClosed →
              match pcj with
              | C_Shutdown | C_Kill => True
              | C_KillRest | C_Returned FnShutdown => quit (world s) = ChClosed
              | C_Returned FnKill => quit (world s) = ChClosed ∧ kill (world s) = ChClosed
              | C_Panicked _ => False
              end) as Hboth.
    { intros j pcj Hj HQ HK. specialize (Hcallers _ _ Hj).
      destruct pcj as [| | |[]|]; naive_solver. }
    destruct Hcase as [(-> & -> & ->)|[(-> & -> & ->)|(-> & -> & ->)]];
      rewrite ?Q1, ?Q2, ?K1, ?K2; cbn [chan_state]; cbn in Hpc_inv;
      (split_and!;
       [ rewrite Hq; destruct (quit (world s)); repeat case_decide; naive_solver lia
       | rewrite Hk; destruct (kill (world s)); repeat case_decide; naive_solver lia
       | naive_solver
       | intros j pcj Hj; destruct (Hlook _ _ Hj) as [[-> ->]|Hold]; [done|];
         specialize (Hcallers _ _ Hold); destruct pcj as [| | |[]|]; naive_solver ]).
  - destruct (step_signals_frame _ _ _ H) as (Eq & Ek & Ecq & Eck & Hc).
    { intros i ->. apply Hl. eauto. }
    unfold signals_inv. rewrite Eq, Ek, Ecq, Eck. repeat split; try done.
    intros i pc Hi.
    destruct Hc as [Hc|[Hc|Hc]]; rewrite Hc in Hi.
    + by apply (Hcallers i).
    + apply lookup_app_Some in Hi as [Hi|[_ Hi]]; [by apply (Hcallers i)|].
      apply list_lookup_singleton_Some in Hi as [_ <-]. done.
    + apply lookup_app_Some in Hi as [Hi|[_ Hi]]; [by apply (Hcallers i)|].
      apply list_lookup_singleton_Some in Hi as [_ <-]. done.
Qed.

Lemma reachable_signals_inv s : reachable s → signals_inv s.
Proof.
  intros [mask H].
  eapply (rtc_step_invariant signals_inv); [|done|apply boot_signals_inv].
  intros l s1 s2. apply step_signals_inv.
Qed.

(** C8.  [Kill] calls [Shutdown] before it closes [kill]: in every reachable
    state of the process, [kill] closed implies [quit] closed; when a call of
    [Kill] has returned both are closed; and a call of [Kill], in whatever
    state it is made (also when [Shutdown] was never called), returns
    with both closed. *)
Theorem kill_implies_shutdown s :
  reachable s →
  (kill (world s) = ChClosed → quit (world s) = ChClosed)
  ∧ (∀ i, callers s !! i = Some (C_Returned FnKill) →
       quit (world s) = ChClosed ∧ kill (world s) = ChClosed)
  ∧ (∃ w', exec Kill (world s) = (Ret tt, w')
           ∧ quit w' = ChClosed ∧ kill w' = ChClosed).
Proof.
  intros Hs. destruct (reachable_signals_inv _ Hs) as (_ & _ & Himp & Hcallers).
  split_and!; [done| |].
  - intros i Hi. apply (Hcallers _ _ Hi).
  - eexists. unfold exec. rewrite Kill_eq. split; [reflexivity|].
    destruct (signalled_kill (signalled ChQuit (world s))) as [-> ->].
    by destruct (signalled_quit (world s)) as [-> _].
Qed.

(** A process in which [Kill] is called before anything else, the call
    being run to its end. *)
Lemma kill_implies_shutdown_witness :
  reachable killed_process
  ∧ ((kill (world killed_process) = ChClosed → quit (world killed_process) = ChClosed)
     ∧ (∀ i, callers killed_process !! i = Some (C_Returned FnKill) →
          quit (world killed_process) = ChClosed
          ∧ kill (world killed_process) = ChClosed)
     ∧ (∃ w', exec Kill (world killed_process) = (Ret tt, w')
              ∧ quit w' = ChClosed ∧ kill w' = ChClosed)).
Proof.
  assert (reachable killed_process) as Hs
    by apply run_schedule_reachable, boot_reachable.
  split; [exact Hs|]. exact (kill_implies_shutdown killed_process Hs).
Defined.

(** Calls made one after the other. *)
Lemma signalled_counts ch w :
  ch = ChQuit ∨ ch = ChKill →
  closes ChQuit (trace w) = (if decide (quit w = ChClosed) then 1 else 0) →
  closes ChKill (trace w) = (if decide (kill w = ChClosed) then 1 else 0) →
  closes ChQuit (trace (signalled ch w))
    = (if decide (quit (signalled ch w) = ChClosed) then 1 else 0)
  ∧ closes ChKill (trace (signalled ch w))
    = (if decide (kill (signalled ch w) = ChClosed) then 1 else 0).
Proof.
  intros Hch Hq Hk.
  rewrite !signalled_closes by (destruct Hch as [-> | ->]; done).
  rewrite Hq, Hk.
  destruct Hch as [-> | ->]; cbn [chan_state].
  - destruct (signalled_quit w) as [-> ->].
    destruct (quit w), (kill w); split; repeat case_decide; naive_solver lia.
  - destruct (signalled_kill w) as [-> ->].
    destruct (quit w), (kill w); split; repeat case_decide; naive_solver lia.
Qed.

Lemma call_all_eq fs w :
  closes ChQuit (trace w) = (if decide (quit w = ChClosed) then 1 else 0) →
  closes ChKill (trace w) = (if decide (kill w = ChClosed) then 1 else 0) →
  ∃ w', exec (call_all fs) w = (Ret tt, w')
        ∧ closes ChQuit (trace w') = (if decide (quit w' = ChClosed) then 1 else 0)
        ∧ closes ChKill (trace w') = (if decide (kill w' = ChClosed) then 1 else 0)
        ∧ (quit w' = ChClosed ↔ fs ≠ [] ∨ quit w = ChClosed)
        ∧ (kill w' = ChClosed ↔ FnKill ∈ fs ∨ kill w = ChClosed).
Proof.
  revert w. induction fs as [|f fs IH]; intros w Hq Hk.
  - exists w. split_and!; try done.
    + naive_solver.
    + split; [auto|]. intros [H|H]; [by apply elem_of_nil in H | done].
  - set (w1 := match f with
               | FnShutdown => signalled ChQuit w
               | FnKill => signalled ChKill (signalled ChQuit w)
               end).
    assert (closes ChQuit (trace w1) = (if decide (quit w1 = ChClosed) then 1 else 0)
            ∧ closes ChKill (trace w1) = (if decide (kill w1 = ChClosed) then 1 else 0))
      as [Hq1 Hk1].
    { subst w1. destruct f.
      - apply signalled_counts; auto.
      - destruct (signalled_counts ChQuit w) as [? ?]; auto.
        apply signalled_counts; auto. }
    assert (quit w1 = ChClosed
            ∧ (kill w1 = ChClosed ↔ f = FnKill ∨ kill w = ChClosed)) as [Q1 K1].
    { subst w1. destruct f.
      - destruct (signalled_quit w) as [-> ->]. naive_solver.
      - destruct (signalled_kill (signalled ChQuit w)) as [-> ->].
        destruct (signalled_quit w) as [-> _]. naive_solver. }
    destruct (IH w1 Hq1 Hk1) as (w' & Hexec & Hq' & Hk' & Q' & K').
    exists w'. split_and!; try done.
    + revert Hexec. subst w1. unfold exec. destruct f; cbn [call_all]; unfold bind;
        rewrite ?Shutdown_eq, ?Kill_eq; done.
    + rewrite Q'. naive_solver.
    + rewrite K', K1, elem_of_cons. naive_solver.
Qed.

(** A caller is never blocked, and its step does not end the process. *)
Lemma caller_progress s i pc :
  crashed s = None → callers s !! i = Some pc → calling pc →
  ∃ s', step_fn (LCaller i) s = Some s' ∧ crashed s' = None.
Proof.
  intros Hlive Hpc Hcalling. unfold step_fn, step_caller. rewrite Hlive, Hpc.
  destruct Hcalling as [-> | [-> | ->]]; cbn; unfold exec, bind;
    rewrite ?Shutdown_eq, ?Kill_rest_eq; cbn; eauto.
Qed.

(** C7.  In every reachable state of a process in which any number of
    goroutines call [Shutdown] and [Kill], interleaved in any way: [quit] has
    gone from open to closed at most once, and exactly once as soon as one
    call has returned; the same for [kill] and the calls of [Kill]; no call
    has panicked; a call that has not returned can take its next step and
    that step does not end the process.  The same holds for calls made one
    after the other, whatever state they start in. *)
Theorem signals_close_once s :
  reachable s →
  closes ChQuit (trace (world s)) ≤ 1
  ∧ closes ChKill (trace (world s)) ≤ 1
  ∧ (∀ i f, callers s !! i = Some (C_Returned f) →
       closes ChQuit (trace (world s)) = 1 ∧ quit (world s) = ChClosed)
  ∧ (∀ i, callers s !! i = Some (C_Returned FnKill) →
       closes ChKill (trace (world s)) = 1 ∧ kill (world s) = ChClosed)
  ∧ (∀ i v, callers s !! i ≠ Some (C_Panicked v))
  ∧ (∀ i pc, crashed s = None → callers s !! i = Some pc → calling pc →
       ∃ s', step_fn (LCaller i) s = Some s' ∧ crashed s' = None)
  ∧ (∀ fs, ∃ w',
       exec (call_all fs) (world s) = (Ret tt, w')
       ∧ closes ChQuit (trace w')
         = (if decide (fs ≠ [] ∨ quit (world s) = ChClosed) then 1 else 0)
       ∧ closes ChKill (trace w')
         = (if decide (FnKill ∈ fs ∨ kill (world s) = ChClosed) then 1 else 0)).
Proof.
  intros Hs. destruct (reachable_signals_inv _ Hs) as (Hq & Hk & Himp & Hcallers).
  split_and!.
  - rewrite Hq. destruct (decide (quit (world s) = ChClosed)); lia.
  - rewrite Hk. destruct (decide (kill (world s) = ChClosed)); lia.
  - intros i f Hi. specialize (Hcallers _ _ Hi). cbn in Hcallers.
    assert (quit (world s) = ChClosed) as HQ by (destruct f; naive_solver).
    split; [|done]. rewrite Hq. by destruct (decide (quit (world s) = ChClosed)).
  - intros i Hi. specialize (Hcallers _ _ Hi). cbn in Hcallers.
    destruct Hcallers as [_ HK]. split; [|done]. rewrite Hk.
    by destruct (decide (kill (world s) = ChClosed)).
  - intros i v Hi. apply (Hcallers _ _ Hi).
  - intros i pc Hlive Hpc Hcalling. by eapply caller_progress.
  - intros fs. destruct (call_all_eq fs (world s) Hq Hk) as (w' & He & Hq' & Hk' & Q & K).
    exists w'. split; [done|]. rewrite Hq', Hk'.
    split; repeat case_decide; naive_solver.
Qed.

Lemma signals_close_once_witness :
  reachable signalled_process
  ∧ closes ChQuit (trace (world signalled_process)) = 1
  ∧ closes ChKill (trace (world signalled_process)) = 1
  ∧ callers signalled_process
    = [C_Returned FnShutdown; C_Returned FnKill; C_Returned FnKill;
       C_Returned FnShutdown].
Proof.
  assert (reachable signalled_process) as Hs
    by apply run_schedule_reachable, boot_reachable.
  split; [exact Hs|].
  destruct (signals_close_once signalled_process Hs)
    as (_ & _ & Hquit & Hkill & _).
  split; [exact (proj1 (Hquit 0 FnShutdown eq_refl))|].
  split; [exact (proj1 (Hkill 1 eq_refl))|].
  reflexivity.
Defined.

(** ** The serving goroutine *)

(** What a call of [listen] comes to. *)
Lemma listen_eq p env w :
  exec (listen p env) w =
  match listenResult env with
  | ListenErr e => (Ret (Some e), mask_restored p w (after_bind p w))
  | ListenPanic v => (Panicked v, mask_restored p w (after_bind p w))
  | ListenOk =>
      let s := served p env w in
      match crashed s, acceptor s with
      | None, A_Done None =>
          (Ret None, mask_restored p w (listener_closed (world s)))
      | None, A_Done (Some v) =>
          (Panicked v, mask_restored p w (listener_closed (world s)))
      | _, _ => (NoReturn, world s)
      end
  end.
Proof.
  unfold served, at_accept, after_bind, at_bind, mask_restored, listener_closed.
  unfold exec, listen, func, call, bind, accept.
  destruct (Contains (network p) "unix"), (unlink p), (listenResult env); cbn.
  all: try reflexivity.
  all: match goal with
       | |- context [run_schedule ?l ?s] =>
           destruct (crashed (run_schedule l s));
           destruct (acceptor (run_schedule l s)) as [| | | | | | | | | | |[?|]]
       end; reflexivity.
Qed.

Lemma new_events_app w w' evs :
  trace w' = trace w ++ evs → new_events w w' = evs.
Proof. intros H. unfold new_events. rewrite H. apply drop_app_length. Qed.

Lemma HasPrefix_spec s sub :
  HasPrefix s sub = true ↔ ∃ post, s = sub +:+ post.
Proof.
  revert s. induction sub as [|a sub IH]; intros s.
  - destruct s; cbn; split; eauto.
  - destruct s as [|b s]; cbn.
    + split; [done|]. by intros [post H].
    + rewrite andb_true_iff, bool_decide_eq_true, IH. split.
      * intros [-> [post ->]]. eauto.
      * intros [post H]. injection H as -> ->. eauto.
Qed.

Lemma Contains_spec s sub :
  Contains s sub = true ↔ ∃ pre post, s = pre +:+ sub +:+ post.
Proof.
  induction s as [|b s IH]; cbn [Contains].
  - rewrite orb_false_r, HasPrefix_spec. split.
    + intros [post H]. by exists "", post.
    + intros (pre & post & H). destruct pre; cbn in H; [eauto|done].
  - rewrite orb_true_iff, HasPrefix_spec, IH. split.
    + intros [[post H]|(pre & post & ->)].
      * by exists "", post.
      * by exists (String b pre), post.
    + intros (pre & post & H). destruct pre as [|c pre]; cbn in H.
      * left. eauto.
      * right. injection H as -> ->. eauto.
Qed.

Lemma at_bind_trace p w : trace (at_bind p w) = trace w ++ setup_events p.
Proof.
  unfold at_bind, setup_events.
  destruct (Contains (network p) "unix"), (unlink p); cbn;
    rewrite <- ?app_assoc, ?app_nil_r; done.
Qed.

Lemma at_bind_umask p w :
  umask (at_bind p w) = if Contains (network p) "unix" then 0%Z else umask w.
Proof.
  unfold at_bind. by destruct (Contains (network p) "unix"), (unlink p).
Qed.

Lemma mask_restored_trace p w w' :
  trace (mask_restored p w w') = trace w' ++ restore_events p w.
Proof.
  unfold mask_restored, restore_events.
  destruct (Contains (network p) "unix"); cbn; by rewrite ?app_nil_r.
Qed.

Lemma mask_restored_umask p w w' :
  umask w' = umask (at_bind p w) → umask (mask_restored p w w') = umask w.
Proof.
  unfold mask_restored. rewrite at_bind_umask.
  by destruct (Contains (network p) "unix").
Qed.

Lemma served_rtc p env w : rtc step (accept_state (at_accept p w)) (served p env w).
Proof. apply run_schedule_rtc. Qed.

Lemma served_umask p env w :
  umask (world (served p env w)) = umask (at_bind p w).
Proof. by rewrite (rtc_step_umask _ _ (served_rtc p env w)). Qed.

Lemma served_trace p env w :
  ∃ acc, trace (world (served p env w))
         = trace w ++ setup_events p
           ++ EvListen (network p) (address p) :: EvGo GListenerCloser :: acc
         ∧ forallb accept_event acc = true.
Proof.
  destruct (rtc_step_trace _ _ (served_rtc p env w)) as (acc & E & F).
  exists acc. split; [|done]. rewrite E. cbn. rewrite at_bind_trace.
  by rewrite <- !app_assoc.
Qed.

(** The events of a call of [listen]. *)
Lemma listen_trace p env w :
  ∃ evs,
    trace (exec (listen p env) w).2
    = trace w ++ setup_events p ++ EvListen (network p) (address p) :: evs
    ∧ match listenResult env with
      | ListenOk =>
          ∃ acc, forallb accept_event acc = true
                 ∧ evs = EvGo GListenerCloser :: acc
                         ++ (if came_back (exec (listen p env) w).1
                             then EvListenerClose :: restore_events p w else [])
      | _ => evs = restore_events p w
      end.
Proof.
  rewrite listen_eq.
  destruct (listenResult env) as [|e|v].
  - destruct (served_trace p env w) as (acc & E & F). cbn zeta.
    destruct (crashed (served p env w));
      destruct (acceptor (served p env w)) as [| | | | | | | | | | |[?|]]; cbn.
    all: try (eexists; split;
              [ rewrite E; reflexivity
              | exists acc; split; [done | by rewrite app_nil_r] ]).
    all: rewrite mask_restored_trace; cbn; rewrite E;
         (eexists; split;
           [ | exists acc; split; [done | reflexivity] ]);
         by rewrite <- !app_assoc.
  - exists (restore_events p w). split; [|done]. cbn.
    rewrite mask_restored_trace. cbn. rewrite at_bind_trace.
    by rewrite <- !app_assoc.
  - exists (restore_events p w). split; [|done]. cbn.
    rewrite mask_restored_trace. cbn. rewrite at_bind_trace.
    by rewrite <- !app_assoc.
Qed.

(** A closed signal stays closed. *)
Lemma step_quit_closed l s s' :
  step_fn l s = Some s' → quit (world s) = ChClosed → quit (world s') = ChClosed.
Proof.
  intros H HQ.
  assert ((∃ i, l = LCaller i) ∨ ¬ (∃ i, l = LCaller i)) as [[i ->]|Hl]
    by (destruct l; eauto; right; intros [? ?]; discriminate).
  - apply step_caller_cases in H as (pc & pc' & ch & _ & -> & Hcase). cbn.
    destruct Hcase as [(_ & _ & ->)|[(_ & _ & ->)|(_ & _ & ->)]].
    + apply signalled_quit.
    + apply signalled_quit.
    + by destruct (signalled_kill (world s)) as [_ ->].
  - destruct (step_signals_frame _ _ _ H) as (-> & _); [|done].
    intros i ->. apply Hl. eauto.
Qed.

Lemma step_drain_inv l s s' :
  drain_inv s → step_fn l s = Some s' → drain_inv s'.
Proof.
  intros Hinv H. unfold drain_inv in *.
  step_cases H; step_simpl;
    repeat match goal with
           | E : acceptor _ = _ |- _ => rewrite E in Hinv |- *; clear E
           end;
    cbn [acceptor_panic] in *; simplify_eq; try done.
  - destruct (signalled_quit (world s)) as [-> _]. by repeat case_match.
  - destruct (signalled_quit (world s)) as [-> _]. by repeat case_match.
  - destruct (signalled_kill (world s)) as [_ ->]. done.
  - case_bool_decide as Hq; [|done]. cbn in Hq. by injection Hq.
Qed.

Lemma served_drain_inv p env w : drain_inv (served p env w).
Proof.
  eapply (rtc_step_invariant drain_inv); [|apply served_rtc|done].
  intros l s1 s2. apply step_drain_inv.
Qed.

Lemma listen_umask p env w :
  umask (exec (listen p env) w).2
  = if came_back (exec (listen p env) w).1 then umask w else umask (at_bind p w).
Proof.
  rewrite listen_eq. destruct (listenResult env) as [|e|v]; cbn.
  - pose proof (served_umask p env w) as Hu.
    destruct (crashed (served p env w));
      destruct (acceptor (served p env w)) as [| | | | | | | | | | |[?|]]; cbn;
      try done; by apply mask_restored_umask.
  - by apply mask_restored_umask.
  - by apply mask_restored_umask.
Qed.

Lemma accept_event_not_mask e :
  accept_event e = true → mask_or_path_event e = false.
Proof. by destruct e. Qed.

(** C10.  The unix-domain handling of [listen] goes by
    [strings.Contains(p.network, "unix")]: it is applied exactly when the
    network has "unix" as a substring ("unixpacket" and "unixgram" too); then
    the call begins with [Umask(0)], then [Unlink(p.address)] when [p.unlink]
    is set, then [net.Listen].  For a network without that substring the call
    begins with [net.Listen], none of its events is on the mask or on the
    path, and it leaves the mask as it was. *)
Theorem unix_handling p env w :
  (Contains (network p) "unix" = true
   ↔ ∃ pre post, network p = pre +:+ "unix" +:+ post)
  ∧ (Contains (network p) "unix" = true →
       ∃ rest, new_events w (exec (listen p env) w).2
               = EvUmask 0 :: (if unlink p then [EvUnlink (address p)] else [])
                 ++ EvListen (network p) (address p) :: rest)
  ∧ (Contains (network p) "unix" = false →
       (∃ rest, new_events w (exec (listen p env) w).2
                = EvListen (network p) (address p) :: rest)
       ∧ (∀ e, e ∈ new_events w (exec (listen p env) w).2 →
            mask_or_path_event e = false)
       ∧ umask (exec (listen p env) w).2 = umask w)
  ∧ Contains "unixpacket" "unix" = true
  ∧ Contains "unixgram" "unix" = true
  ∧ Contains "tcp" "unix" = false.
Proof.
  split; [apply Contains_spec|].
  destruct (listen_trace p env w) as (evs & Htr & Hevs).
  apply new_events_app in Htr.
  split_and!; try reflexivity.
  - intros Hunix. rewrite Htr. unfold setup_events. rewrite Hunix. cbn. eauto.
  - intros Hunix. split_and!.
    + rewrite Htr. unfold setup_events. rewrite Hunix. cbn. eauto.
    + intros e. rewrite Htr. unfold setup_events, restore_events in *.
      rewrite Hunix in *. cbn.
      destruct (listenResult env).
      * destruct Hevs as (acc & Hacc & ->).
        rewrite forallb_forall in Hacc. setoid_rewrite <- list_elem_of_In in Hacc.
        rewrite !elem_of_cons, elem_of_app. intros [->|[->|[He|He]]]; try done.
        { by apply accept_event_not_mask, Hacc. }
        destruct (came_back _); [|by apply elem_of_nil in He].
        apply elem_of_cons in He as [->|He]; [done | by apply elem_of_nil in He].
      * subst evs. rewrite elem_of_cons. intros [->|He]; [done|].
        by apply elem_of_nil in He.
      * subst evs. rewrite elem_of_cons. intros [->|He]; [done|].
        by apply elem_of_nil in He.
    + rewrite listen_umask, at_bind_umask, Hunix. by destruct (came_back _).
Qed.

Lemma unix_handling_witness :
  Contains (network unix_proxy) "unix" = true
  ∧ ∃ rest, new_events (NewProxy_world 18)
              (exec (listen unix_proxy serving_env) (NewProxy_world 18)).2
            = EvUmask 0 :: [EvUnlink (address unix_proxy)]
              ++ EvListen (network unix_proxy) (address unix_proxy) :: rest.
Proof.
  split; [reflexivity|].
  exact (proj1 (proj2 (unix_handling unix_proxy serving_env (NewProxy_world 18)))
           eq_refl).
Defined.

(** C2, as the claim states it, fails: with a unix-domain network and a
    successful bind, [listen] is in the accept loop (one connection is
    accepted, its session is in the handler), and the mask, 18 before the
    call, is zero: after [net.Listen] no [Umask] has restored it. *)
Lemma unix_mask_left_at_zero :
  Contains (network unix_proxy) "unix" = true
  ∧ listenResult serving_env = ListenOk
  ∧ (exec (listen unix_proxy serving_env) (NewProxy_world 18)).1 = NoReturn
  ∧ acceptor (served unix_proxy serving_env (NewProxy_world 18)) = A_Accept
  ∧ sess <$> conns (world (served unix_proxy serving_env (NewProxy_world 18)))
    = [S_Handle]
  ∧ umask (NewProxy_world 18) = 18%Z
  ∧ umask (exec (listen unix_proxy serving_env) (NewProxy_world 18)).2 = 0%Z
  ∧ trace (exec (listen unix_proxy serving_env) (NewProxy_world 18)).2
    = [EvUmask 0; EvUnlink "/var/tmp/mongobetween.sock";
       EvListen "unix" "/var/tmp/mongobetween.sock"; EvGo GListenerCloser;
       EvGauge "open_connections"; EvWgAdd 1; EvOpened 0; EvGo (GSession 0);
       EvGo (GWatcher 0); EvLog Info "Accept" [FRemote "10.0.0.7:50312"]].
Proof. vm_compute. repeat split. Qed.

(** C2, amended.  With "unix" in the network, [listen] sets the mask to zero
    before [net.Listen] and restores the mask it found when the call of
    [listen] ends, the restore being deferred to there: at once when the bind
    fails (by an error or by a panic); after a bind that succeeds, only when
    [accept] has come back.  As long as [accept] runs the mask is zero. *)
Theorem unix_mask_scope p env w :
  Contains (network p) "unix" = true →
  (∃ rest, new_events w (exec (listen p env) w).2
           = EvUmask 0 :: (if unlink p then [EvUnlink (address p)] else [])
             ++ EvListen (network p) (address p) :: rest)
  ∧ (listenResult env ≠ ListenOk →
       came_back (exec (listen p env) w).1 = true
       ∧ umask (exec (listen p env) w).2 = umask w
       ∧ new_events w (exec (listen p env) w).2
         = EvUmask 0 :: (if unlink p then [EvUnlink (address p)] else [])
           ++ [EvListen (network p) (address p); EvUmask (umask w)])
  ∧ (listenResult env = ListenOk →
       (∀ k, umask (world (run_schedule (take k (schedule env))
                             (accept_state (at_accept p w)))) = 0%Z)
       ∧ (came_back (exec (listen p env) w).1 = false →
            umask (exec (listen p env) w).2 = 0%Z)
       ∧ (came_back (exec (listen p env) w).1 = true →
            umask (exec (listen p env) w).2 = umask w
            ∧ (∃ end_, acceptor (served p env w) = A_Done end_)
            ∧ ∃ acc, forallb accept_event acc = true
                ∧ new_events w (exec (listen p env) w).2
                  = EvUmask 0 :: (if unlink p then [EvUnlink (address p)] else [])
                    ++ EvListen (network p) (address p) :: EvGo GListenerCloser
                       :: acc ++ [EvListenerClose; EvUmask (umask w)])).
Proof.
  intros Hunix.
  destruct (listen_trace p env w) as (evs & Htr & Hevs).
  apply new_events_app in Htr. rewrite Htr.
  pose proof (listen_umask p env w) as Hu. rewrite at_bind_umask, Hunix in Hu.
  unfold setup_events, restore_events in *. rewrite Hunix in *. cbn [app].
  split_and!.
  - eauto.
  - intros Hres. rewrite listen_eq in Hu |- *.
    destruct (listenResult env); [done| |]; subst evs; cbn in Hu |- *; done.
  - intros Hres. rewrite Hres in Hevs. destruct Hevs as (acc & Hacc & ->).
    split_and!.
    + intros k.
      rewrite (rtc_step_umask _ _ (run_schedule_rtc (take k (schedule env)) _)).
      cbn. by rewrite at_bind_umask, Hunix.
    + intros Hback. by rewrite Hback in Hu.
    + intros Hback. rewrite Hback in Hu |- *. split; [done|]. split.
      * revert Hback. rewrite listen_eq, Hres. cbn zeta.
        destruct (crashed (served p env w));
          destruct (acceptor (served p env w)) as [| | | | | | | | | | |[?|]];
          cbn; try done; eauto.
      * exists acc. split; [done|]. cbn. done.
Qed.

Lemma unix_mask_scope_witness :
  Contains (network unix_proxy) "unix" = true
  ∧ umask (exec (listen unix_proxy graceful_env) (NewProxy_world 18)).2 = 18%Z
  ∧ umask (exec (listen unix_proxy serving_env) (NewProxy_world 18)).2 = 0%Z.
Proof.
  split; [reflexivity|].
  destruct (unix_mask_scope unix_proxy graceful_env (NewProxy_world 18) eq_refl)
    as (_ & _ & Hended).
  destruct (Hended eq_refl) as (_ & _ & Hback).
  destruct (unix_mask_scope unix_proxy serving_env (NewProxy_world 18) eq_refl)
    as (_ & _ & Hserving).
  destruct (Hserving eq_refl) as (_ & Hrunning & _).
  split; [exact (proj1 (Hback eq_refl)) | exact (Hrunning eq_refl)].
Defined.

(** What a call of [listen] returns. *)
Lemma listen_returns p env w :
  (∀ e, (exec (listen p env) w).1 = Ret (Some e) ↔ listenResult env = ListenErr e)
  ∧ ((exec (listen p env) w).1 = Ret None →
       quit (exec (listen p env) w).2 = ChClosed).
Proof.
  split.
  - intros e. rewrite listen_eq. destruct (listenResult env) as [|e'|v]; cbn zeta.
    + destruct (crashed (served p env w));
        destruct (acceptor (served p env w)) as [| | | | | | | | | | |[?|]];
        cbn; naive_solver.
    + cbn. naive_solver.
    + cbn. naive_solver.
  - pose proof (served_drain_inv p env w) as Hdrain. unfold drain_inv in Hdrain.
    rewrite listen_eq. destruct (listenResult env) as [|e'|v]; cbn zeta; [|done..].
    destruct (crashed (served p env w));
      destruct (acceptor (served p env w)) as [| | | | | | | | | | |[?|]];
      cbn; try done.
    intros _. unfold mask_restored. by destruct (Contains _ _).
Qed.

(** C5.  [listen] returns a non-nil error exactly when [net.Listen] fails
    with that error; it returns nil exactly when the bind succeeded and
    [accept] returned, and then [quit] is closed.  In the accept loop an
    error of [l.Accept()] leads to the select; there, with [quit] open, the
    error is logged and the acceptor is back at [l.Accept()]; with [quit]
    closed the loop is left by [return], the deferred call logs and waits for
    the sessions, and with no session left [accept] has returned. *)
Theorem listen_result p env w :
  (∀ e, (exec (listen p env) w).1 = Ret (Some e) ↔ listenResult env = ListenErr e)
  ∧ ((exec (listen p env) w).1 = Ret None
     ↔ listenResult env = ListenOk
       ∧ crashed (served p env w) = None
       ∧ acceptor (served p env w) = A_Done None)
  ∧ ((exec (listen p env) w).1 = Ret None →
       quit (exec (listen p env) w).2 = ChClosed)
  ∧ (∀ s e, crashed s = None →
       (acceptor s = A_Accept →
          ∃ s', step_fn (LAcceptFailed e) s = Some s'
                ∧ acceptor s' = A_Select e ∧ world s' = world s)
       ∧ (acceptor s = A_Select e → quit (world s) = ChOpen →
            ∃ s', step_fn LAcceptor s = Some s'
                  ∧ acceptor s' = A_LogFailed e ∧ world s' = world s)
       ∧ (acceptor s = A_LogFailed e →
            ∃ s', step_fn LAcceptor s = Some s'
                  ∧ acceptor s' = A_Accept
                  ∧ world s' = emit (EvLog Error "Failed to accept incoming connection"
                                       [FError e]) (world s))
       ∧ (acceptor s = A_Select e → quit (world s) = ChClosed →
            ∃ s', step_fn LAcceptor s = Some s'
                  ∧ acceptor s' = A_DeferLog None ∧ world s' = world s)
       ∧ (acceptor s = A_DeferLog None →
            ∃ s', step_fn LAcceptor s = Some s'
                  ∧ acceptor s' = A_Wait None
                  ∧ world s' = emit (EvLog Info "Waiting for open connections" [])
                                 (world s))
       ∧ (acceptor s = A_Wait None → wg (world s) = 0%Z →
            ∃ s', step_fn LAcceptor s = Some s'
                  ∧ acceptor s' = A_Done None
                  ∧ world s' = emit EvWgWait (world s))).
Proof.
  split_and!.
  - apply listen_returns.
  - rewrite listen_eq. destruct (listenResult env) as [|e'|v]; cbn zeta.
    + destruct (crashed (served p env w));
        destruct (acceptor (served p env w)) as [| | | | | | | | | | |[?|]];
        cbn; naive_solver.
    + cbn. naive_solver.
    + cbn. naive_solver.
  - apply listen_returns.
  - intros s e Hlive. unfold step_fn. rewrite Hlive. split_and!.
    + intros Ha. go_unfold_goal. rewrite Ha. eauto.
    + intros Ha HQ. go_unfold_goal. rewrite Ha. go_unfold_goal.
      cbn [chan_state]. rewrite HQ. cbn. eauto.
    + intros Ha. go_unfold_goal. rewrite Ha. go_unfold_goal. eauto.
    + intros Ha HQ. go_unfold_goal. rewrite Ha. go_unfold_goal.
      cbn [chan_state]. rewrite HQ. cbn. eauto.
    + intros Ha. go_unfold_goal. rewrite Ha. go_unfold_goal. eauto.
    + intros Ha Hwg. go_unfold_goal. rewrite Ha. go_unfold_goal.
      rewrite Hwg. cbn. eauto.
Qed.

Lemma listen_result_witness :
  (exec (listen unix_proxy graceful_env) (NewProxy_world 18)).1 = Ret None
  ∧ quit (exec (listen unix_proxy graceful_env) (NewProxy_world 18)).2 = ChClosed
  ∧ (exec (listen unix_proxy bind_failure_env) (NewProxy_world 18)).1
    = Ret (Some "bind: address already in use").
Proof.
  destruct (listen_result unix_proxy graceful_env (NewProxy_world 18))
    as (_ & _ & Hquit & _).
  destruct (listen_result unix_proxy bind_failure_env (NewProxy_world 18))
    as (Herr & _).
  split; [reflexivity|].
  split; [exact (Hquit eq_refl)|].
  exact (proj2 (Herr "bind: address already in use") eq_refl).
Defined.

(** [listen] as a statement of [run]. *)
Lemma listen_stmt {R} p env ds w :
  @listen R p env ds w =
  match exec (listen p env) w with
  | (Ret r, w') => (Normal r, ds, w')
  | (Panicked v, w') => (Panic v, ds, w')
  | (NoReturn, w') => (Blocked, ds, w')
  end.
Proof.
  unfold listen, exec, func.
  by destruct (call _ _ w) as [[r|v|] w'].
Qed.

(** What a call of [Run] comes to. *)
Lemma Run_eq p env w :
  exec (Run p env) w =
  let w1 := emit (EvConnect Primary (ping p)) w in
  match connectPrimary env with
  | ConnectErr e => (Ret (Some e), w1)
  | ConnectPanic v => (Ret None, emit_all (restart_events v) w1)
  | ConnectOk =>
      if failover p then
        let w2 := emit (EvConnect Failover (ping p)) w1 in
        match connectFailover env with
        | ConnectErr e => (Ret (Some e), emit (EvMongoClose Primary) w2)
        | ConnectPanic v =>
            (Ret None, emit_all (restart_events v) (emit (EvMongoClose Primary) w2))
        | ConnectOk => run_end [Failover; Primary] (exec (listen p env) w2)
        end
      else run_end [Primary] (exec (listen p env) w1)
  end.
Proof.
  pose proof (λ ds w, listen_stmt (R:=error) p env ds w) as HL.
  set (L := exec (listen p env)) in *.
  cbv beta iota zeta delta
    [Run run serve exec func call finish unwind bind mongo_Connect modify
     defer_recover defer_call defer_ mongo_Close ret return_ panic run_end
     crash_handler log Sleep go emit_all restart_events foldl fmap list_fmap].
  destruct (connectPrimary env) as [|e|v]; [|reflexivity..].
  destruct (failover p).
  - destruct (connectFailover env) as [|e|v]; [|reflexivity..].
    rewrite HL. by destruct (L _) as [[r|v|] w'].
  - rewrite HL. by destruct (L _) as [[r|v|] w'].
Qed.

(** The start-up-and-serve sequence as a call of its own. *)
Lemma serve_eq p env w :
  call None (serve p env) w =
  let w1 := emit (EvConnect Primary (ping p)) w in
  match connectPrimary env with
  | ConnectErr e => (Ret (Some e), w1)
  | ConnectPanic v => (Panicked v, w1)
  | ConnectOk =>
      if failover p then
        let w2 := emit (EvConnect Failover (ping p)) w1 in
        match connectFailover env with
        | ConnectErr e => (Ret (Some e), emit (EvMongoClose Primary) w2)
        | ConnectPanic v => (Panicked v, emit (EvMongoClose Primary) w2)
        | ConnectOk => serve_end [Failover; Primary] (exec (listen p env) w2)
        end
      else serve_end [Primary] (exec (listen p env) w1)
  end.
Proof.
  pose proof (λ ds w, listen_stmt (R:=error) p env ds w) as HL.
  set (L := exec (listen p env)) in *.
  cbv beta iota zeta delta
    [serve exec func call finish unwind bind mongo_Connect modify
     defer_recover defer_call defer_ mongo_Close ret return_ panic serve_end
     emit_all foldl fmap list_fmap].
  destruct (connectPrimary env) as [|e|v]; [|reflexivity..].
  destruct (failover p).
  - destruct (connectFailover env) as [|e|v]; [|reflexivity..].
    rewrite HL. by destruct (L _) as [[r|v|] w'].
  - rewrite HL. by destruct (L _) as [[r|v|] w'].
Qed.

(** [run] is the sequence with the crash handler under it: a result of the
    sequence is handed on, a panic of the sequence is recovered. *)
Lemma Run_supervises p env w :
  exec (Run p env) w =
  match call None (serve p env) w with
  | (Ret r, w1) => (Ret r, w1)
  | (Panicked v, w1) => (Ret None, emit_all (restart_events v) w1)
  | (NoReturn, w1) => (NoReturn, w1)
  end.
Proof.
  rewrite Run_eq, serve_eq. cbv zeta.
  destruct (connectPrimary env) as [|e|v]; [|reflexivity..].
  destruct (failover p).
  - destruct (connectFailover env) as [|e|v]; [|reflexivity..].
    by destruct (exec (listen p env) _) as [[r|v|] w'].
  - by destruct (exec (listen p env) _) as [[r|v|] w'].
Qed.

Lemma emit_all_trace evs w : trace (emit_all evs w) = trace w ++ evs.
Proof.
  unfold emit_all. revert w. induction evs as [|e evs IH]; intros w; cbn [foldl].
  - by rewrite app_nil_r.
  - rewrite IH. cbn. by rewrite <- app_assoc.
Qed.

Lemma emit_all_quit evs w : quit (emit_all evs w) = quit w.
Proof.
  unfold emit_all. revert w.
  induction evs as [|e evs IH]; intros w; cbn [foldl]; [done|]. by rewrite IH.
Qed.

Lemma accept_event_listen e : accept_event e = true → listen_event e = true.
Proof. by destruct e as [| | | | | | | | | | | | | | |[]|]. Qed.

(** The events of a call of [listen] are events of [listen]. *)
Lemma listen_events p env w :
  ∃ evs, trace (exec (listen p env) w).2 = trace w ++ evs
         ∧ forallb listen_event evs = true.
Proof.
  destruct (listen_trace p env w) as (evs & Htr & Hevs).
  eexists. split; [exact Htr|].
  rewrite forallb_app. apply andb_true_iff. split.
  - unfold setup_events. by destruct (Contains _ _), (unlink p).
  - cbn. assert (forallb listen_event (restore_events p w) = true) as Hrest.
    { unfold restore_events. by destruct (Contains _ _). }
    destruct (listenResult env); [|by subst..].
    destruct Hevs as (acc & Hacc & ->). cbn. rewrite forallb_app.
    apply andb_true_iff. split.
    + rewrite forallb_forall in Hacc |- *. intros e He.
      by apply accept_event_listen, Hacc.
    + by destruct (came_back _).
Qed.

Lemma listen_event_not_restart e : listen_event e = true → restart_event e = false.
Proof. by destruct e as [| | | | | | | | | | | | | | |[]|]. Qed.

Lemma listen_event_releases u evs :
  forallb listen_event evs = true → releases u evs = 0.
Proof.
  unfold releases. induction evs as [|e evs IH]; [done|]. cbn [forallb count_occ].
  intros [He Hevs]%andb_true_iff. rewrite (IH Hevs).
  destruct (Event_eq_dec e (EvMongoClose u)) as [->|]; done.
Qed.

Lemma releases_app u t1 t2 : releases u (t1 ++ t2) = releases u t1 + releases u t2.
Proof. apply count_occ_app. Qed.

(** The events of the start-up-and-serve sequence: none marks a restart. *)
Lemma serve_events p env w :
  ∃ evs, trace (call None (serve p env) w).2 = trace w ++ evs
         ∧ ∀ e, e ∈ evs → restart_event e = false.
Proof.
  rewrite serve_eq. cbv zeta.
  assert (∀ ups w0,
    ∃ evs, trace (serve_end ups (exec (listen p env) w0)).2 = trace w0 ++ evs
           ∧ ∀ e, e ∈ evs → restart_event e = false) as Hend.
  { intros ups w0. destruct (listen_events p env w0) as (evs & Htr & Hevs).
    rewrite forallb_forall in Hevs. setoid_rewrite <- list_elem_of_In in Hevs.
    destruct (exec (listen p env) w0) as [[r|v|] w']; cbn in Htr |- *.
    - exists (evs ++ (EvMongoClose <$> ups)).
      rewrite emit_all_trace, Htr, <- app_assoc. split; [done|].
      intros e [He|He]%elem_of_app; [by apply listen_event_not_restart, Hevs|].
      apply list_elem_of_fmap in He as (u & -> & _). done.
    - exists (evs ++ (EvMongoClose <$> ups)).
      rewrite emit_all_trace, Htr, <- app_assoc. split; [done|].
      intros e [He|He]%elem_of_app; [by apply listen_event_not_restart, Hevs|].
      apply list_elem_of_fmap in He as (u & -> & _). done.
    - exists evs. split; [done|]. intros e He.
      by apply listen_event_not_restart, Hevs. }
  destruct (connectPrimary env) as [|e|v].
  - destruct (failover p).
    + destruct (connectFailover env) as [|e|v].
      * destruct (Hend [Failover; Primary]
                    (emit (EvConnect Failover (ping p))
                       (emit (EvConnect Primary (ping p)) w))) as (evs & Htr & Hevs).
        exists ([EvConnect Primary (ping p); EvConnect Failover (ping p)] ++ evs).
        split; [etrans; [apply Htr|]; cbn; by rewrite <- !app_assoc|].
        intros e [He|He]%elem_of_app; [|by apply Hevs].
        rewrite !elem_of_cons, elem_of_nil in He. naive_solver.
      * exists [EvConnect Primary (ping p); EvConnect Failover (ping p);
                EvMongoClose Primary].
        cbn. rewrite <- !app_assoc. split; [done|].
        intros e0. rewrite !elem_of_cons, elem_of_nil. naive_solver.
      * exists [EvConnect Primary (ping p); EvConnect Failover (ping p);
                EvMongoClose Primary].
        cbn. rewrite <- !app_assoc. split; [done|].
        intros e0. rewrite !elem_of_cons, elem_of_nil. naive_solver.
    + destruct (Hend [Primary] (emit (EvConnect Primary (ping p)) w))
        as (evs & Htr & Hevs).
      exists ([EvConnect Primary (ping p)] ++ evs).
      split; [etrans; [apply Htr|]; cbn; by rewrite <- !app_assoc|].
      intros e [He|He]%elem_of_app; [|by apply Hevs].
      rewrite !elem_of_cons, elem_of_nil in He. naive_solver.
  - exists [EvConnect Primary (ping p)]. cbn. split; [done|].
    intros e0. rewrite !elem_of_cons, elem_of_nil. naive_solver.
  - exists [EvConnect Primary (ping p)]. cbn. split; [done|].
    intros e0. rewrite !elem_of_cons, elem_of_nil. naive_solver.
Qed.

(** The goroutine of a restart: [run] again; an error it returns is logged. *)
Lemma restart_eq p env w :
  exec (restart p env) w =
  match exec (run p env) w with
  | (Ret (Some e), w') => (Ret tt, emit (EvLog Error "Error restarting" [FError e]) w')
  | (Ret None, w') => (Ret tt, w')
  | (Panicked v, w') => (Panicked v, w')
  | (NoReturn, w') => (NoReturn, w')
  end.
Proof.
  unfold restart, exec, bind, run, func.
  destruct (call _ _ w) as [[[e|]|v|] w']; reflexivity.
Qed.

(** A call of [Run] ends by the way the start-up-and-serve sequence under
    the crash handler ends. *)
Lemma Run_classified p env w :
  match call None (serve p env) w with
  | (Ret (Some e), w1) =>
      exec (Run p env) w = (Ret (Some e), w1)
      ∧ (connectPrimary env = ConnectErr e
         ∨ connectFailover env = ConnectErr e
         ∨ listenResult env = ListenErr e)
  | (Panicked v, w1) =>
      exec (Run p env) w
      = (Ret None,
         emit_all [EvLog Error "Crashed" [FPanic v; FStack];
                   EvSleep 1000000000;
                   EvLog Info "Restarting" [FSleep 1000000000];
                   EvGo GRestart] w1)
  | (Ret None, w1) =>
      exec (Run p env) w = (Ret None, w1) ∧ quit w1 = ChClosed
  | (NoReturn, w1) => exec (Run p env) w = (NoReturn, w1)
  end
  ∧ (∀ e, e ∈ new_events w (call None (serve p env) w).2 → restart_event e = false)
  ∧ (∀ env' w0,
       exec (restart p env') w0 =
       match exec (run p env') w0 with
       | (Ret (Some e), w') =>
           (Ret tt, emit (EvLog Error "Error restarting" [FError e]) w')
       | (Ret None, w') => (Ret tt, w')
       | (Panicked v, w') => (Panicked v, w')
       | (NoReturn, w') => (NoReturn, w')
       end).
Proof.
  split_and!.
  - rewrite Run_supervises.
    assert (∀ ups w0 r w1,
      serve_end ups (exec (listen p env) w0) = (Ret r, w1) →
      match r with
      | Some e => listenResult env = ListenErr e
      | None => quit w1 = ChClosed
      end) as Hend.
    { intros ups w0 r w1.
      destruct (listen_returns p env w0) as (Herr & Hnil).
      destruct (exec (listen p env) w0) as [[r'|v|] w'] eqn:E; cbn; [|done..].
      intros [= -> <-]. destruct r as [e|].
      - by apply Herr.
      - rewrite emit_all_quit. by apply Hnil. }
    pose proof (serve_eq p env w) as Hserve. cbv zeta in Hserve.
    destruct (call None (serve p env) w) as [[[e|]|v|] w1]; try done.
    + split; [done|].
      destruct (connectPrimary env) as [|e'|v']; [|naive_solver..].
      destruct (failover p).
      * destruct (connectFailover env) as [|e'|v']; [|naive_solver..].
        right; right. by apply (Hend _ _ (Some e) _ (eq_sym Hserve)).
      * right; right. by apply (Hend _ _ (Some e) _ (eq_sym Hserve)).
    + split; [done|].
      destruct (connectPrimary env) as [|e'|v']; [|naive_solver..].
      destruct (failover p).
      * destruct (connectFailover env) as [|e'|v']; [|naive_solver..].
        by apply (Hend _ _ None _ (eq_sym Hserve)).
      * by apply (Hend _ _ None _ (eq_sym Hserve)).
  - destruct (serve_events p env w) as (evs & Htr & Hevs).
    by rewrite (new_events_app _ _ _ Htr).
  - intros env' w0. apply restart_eq.
Qed.

(** C3 (amended).  A call of [Run] ends by the way the start-up-and-serve
    sequence ends in the serving goroutine.  (a) The sequence returns an
    error: it is an error of a connect or of the bind, [Run] returns it and
    nothing is restarted.  (b) A panic leaves the sequence: [Run] recovers,
    logs "Crashed" with the panic and the stack, sleeps [restartSleep] (one
    second), logs "Restarting" and starts a goroutine that calls [run] again
    and logs an error that [run] returns; [Run] itself returns nil.  (c) The
    sequence returns nil: [quit] is closed, [Run] returns nil and nothing is
    restarted.  (d) While the sequence has not ended [Run] has not ended.
    No event of the sequence itself is a sleep or the start of a restart.
    A panic leaves [listen] when [net.Listen] panics or when the acceptor
    has left [accept] by a panic; [listen] does not come back when a panic
    has ended the process or the acceptor has not left [accept].  A panic of
    a call in the accept loop takes the acceptor to the deferred call of
    [accept]: it logs, waits in [wg.Wait()] and leaves [accept] with the
    panic only when the counter is zero. *)
Theorem crash_supervision p env w :
  (∀ e w1, call None (serve p env) w = (Ret (Some e), w1) →
     exec (Run p env) w = (Ret (Some e), w1)
     ∧ (connectPrimary env = ConnectErr e
        ∨ connectFailover env = ConnectErr e
        ∨ listenResult env = ListenErr e))
  ∧ (∀ v w1, call None (serve p env) w = (Panicked v, w1) →
       exec (Run p env) w
       = (Ret None,
          emit_all [EvLog Error "Crashed" [FPanic v; FStack];
                    EvSleep 1000000000;
                    EvLog Info "Restarting" [FSleep 1000000000];
                    EvGo GRestart] w1))
  ∧ (∀ w1, call None (serve p env) w = (Ret None, w1) →
       exec (Run p env) w = (Ret None, w1) ∧ quit w1 = ChClosed)
  ∧ (∀ w1, call None (serve p env) w = (NoReturn, w1) →
       exec (Run p env) w = (NoReturn, w1))
  ∧ (∀ e, e ∈ new_events w (call None (serve p env) w).2 → restart_event e = false)
  ∧ (∀ env' w0,
       exec (restart p env') w0 =
       match exec (run p env') w0 with
       | (Ret (Some e), w') =>
           (Ret tt, emit (EvLog Error "Error restarting" [FError e]) w')
       | (Ret None, w') => (Ret tt, w')
       | (Panicked v, w') => (Panicked v, w')
       | (NoReturn, w') => (NoReturn, w')
       end)
  ∧ (∀ w0 v, (exec (listen p env) w0).1 = Panicked v ↔
       listenResult env = ListenPanic v
       ∨ (listenResult env = ListenOk
          ∧ crashed (served p env w0) = None
          ∧ acceptor (served p env w0) = A_Done (Some v)))
  ∧ (∀ w0, (exec (listen p env) w0).1 = NoReturn ↔
       listenResult env = ListenOk
       ∧ (crashed (served p env w0) ≠ None
          ∨ ∀ r, acceptor (served p env w0) ≠ A_Done r))
  ∧ (∀ s v, crashed s = None →
       (acceptor s = A_Accept ∨ (∃ c, acceptor s = A_WgAdd c)
        ∨ (∃ c, acceptor s = A_Opened c) →
          step_fn (LRuntimeFailure v) s = Some (set_acceptor (A_DeferLog (Some v)) s))
       ∧ (acceptor s = A_DeferLog (Some v) →
            ∃ s', step_fn LAcceptor s = Some s'
                  ∧ acceptor s' = A_Wait (Some v)
                  ∧ world s' = emit (EvLog Info "Waiting for open connections" [])
                                 (world s))
       ∧ (acceptor s = A_Wait (Some v) → wg (world s) = 0%Z →
            ∃ s', step_fn LAcceptor s = Some s'
                  ∧ acceptor s' = A_Done (Some v)
                  ∧ world s' = emit EvWgWait (world s))
       ∧ (acceptor s = A_Wait (Some v) → wg (world s) ≠ 0%Z →
            step_fn LAcceptor s = None)).
Proof.
  pose proof (Run_classified p env w) as (Hcls & Hno & Hre).
  split_and!.
  - intros e w1 E. by rewrite E in Hcls.
  - intros v w1 E. by rewrite E in Hcls.
  - intros w1 E. by rewrite E in Hcls.
  - intros w1 E. by rewrite E in Hcls.
  - exact Hno.
  - exact Hre.
  - intros w0 v. rewrite listen_eq.
    destruct (listenResult env) as [|e'|v']; cbn zeta.
    + destruct (crashed (served p env w0));
        destruct (acceptor (served p env w0)) as [| | | | | | | | | | |[?|]];
        cbn; naive_solver.
    + cbn. naive_solver.
    + cbn. naive_solver.
  - intros w0. rewrite listen_eq.
    destruct (listenResult env) as [|e'|v']; cbn zeta.
    + destruct (crashed (served p env w0)) eqn:Hc;
        destruct (acceptor (served p env w0)) as [| | | | | | | | | | |[?|]] eqn:Ha;
        cbn; split; try done; try (intros _; split; [done|]; first [by left | by right]).
      all: intros [_ [?|Hr]]; try done; by edestruct Hr.
    + cbn. naive_solver.
    + cbn. naive_solver.
  - intros s v Hlive. unfold step_fn. rewrite Hlive. split_and!.
    + intros [Ha|[[c Ha]|[c Ha]]]; unfold step_runtime_failure; by rewrite Ha.
    + intros Ha. go_unfold_goal. rewrite Ha. go_unfold_goal. eauto.
    + intros Ha Hwg. go_unfold_goal. rewrite Ha. go_unfold_goal.
      rewrite Hwg. cbn. eauto.
    + intros Ha Hwg. go_unfold_goal. rewrite Ha. go_unfold_goal.
      by destruct (Z.eqb_spec (wg (world s)) 0).
Qed.

Lemma before_adjacent (a b : Event) l1 l2 :
  a ≠ b → b ∉ l1 → before a b (l1 ++ a :: b :: l2).
Proof.
  intros Hab Hb pre post Heq.
  apply app_eq_inv in Heq as [(k & -> & Hk)|(k & -> & Hk)].
  - destruct k as [|x k]; cbn in Hk; [congruence|].
    injection Hk as <- _. exfalso. apply Hb. set_solver.
  - destruct k as [|x k]; cbn in Hk; [congruence|].
    injection Hk as -> _. set_solver.
Qed.

Lemma restart_events_releases u v : releases u (restart_events v) = 0.
Proof. reflexivity. Qed.

Lemma releases_cons u e t :
  releases u (e :: t) = (if decide (e = EvMongoClose u) then 1 else 0) + releases u t.
Proof.
  unfold releases. cbn [count_occ].
  destruct (Event_eq_dec e (EvMongoClose u)); case_decide; done.
Qed.

Lemma releases_nil u : releases u [] = 0.
Proof. done. Qed.

(** C4.  When the connect to the primary fails with an error, [Run] returns
    that error and has done nothing else: no connect to the failover, no
    listener.  When the connect to the failover fails with an error, [Run]
    returns that error, the primary has been closed and no listener opened.
    Whenever [Run] has come back, by a return or by a recovered panic, each
    upstream it had established has been closed, once (the failover before
    the primary), and an upstream it had not established has not. *)
Theorem run_upstreams p env w :
  (∀ e, connectPrimary env = ConnectErr e →
     (exec (Run p env) w).1 = Ret (Some e)
     ∧ new_events w (exec (Run p env) w).2 = [EvConnect Primary (ping p)])
  ∧ (∀ e, connectPrimary env = ConnectOk → failover p = true →
          connectFailover env = ConnectErr e →
     (exec (Run p env) w).1 = Ret (Some e)
     ∧ new_events w (exec (Run p env) w).2
       = [EvConnect Primary (ping p); EvConnect Failover (ping p);
          EvMongoClose Primary])
  ∧ (came_back (exec (Run p env) w).1 = true →
       (∀ u, releases u (new_events w (exec (Run p env) w).2)
             = if established p env u then 1 else 0)
       ∧ (established p env Failover = true →
            before (EvMongoClose Failover) (EvMongoClose Primary)
              (new_events w (exec (Run p env) w).2))).
Proof.
  assert (∀ w0 ups, ∃ evs tail,
    let res := run_end ups (exec (listen p env) w0) in
    (∀ u, releases u evs = 0) ∧ (∀ u, releases u tail = 0)
    ∧ (came_back res.1 = true →
         trace res.2 = trace w0 ++ evs ++ (EvMongoClose <$> ups) ++ tail))
    as Hend.
  { intros w0 ups. destruct (listen_events p env w0) as (evs & Htr & Hevs).
    destruct (exec (listen p env) w0) as [[r|v|] w'] eqn:E; cbn in Htr |- *.
    - exists evs, []. split_and!; [by intros; apply listen_event_releases|done|].
      intros _. by rewrite emit_all_trace, Htr, app_nil_r, <- app_assoc.
    - exists evs, (restart_events v).
      split_and!; [by intros; apply listen_event_releases|done|].
      intros _. by rewrite !emit_all_trace, Htr, <- !app_assoc.
    - exists [], []. done. }
  unfold established. rewrite Run_eq. cbv zeta.
  split_and!.
  - intros e ->. split; [done|]. by apply new_events_app.
  - intros e -> -> ->. split; [done|]. apply new_events_app. cbn.
    by rewrite <- !app_assoc.
  - destruct (connectPrimary env) as [|e|v]; cbn [connected andb].
    + destruct (failover p); cbn [andb].
      * destruct (connectFailover env) as [|e|v]; cbn [connected].
        -- destruct (Hend (emit (EvConnect Failover (ping p))
                             (emit (EvConnect Primary (ping p)) w))
                       [Failover; Primary]) as (evs & tail & Hevs & Htail & Htr).
           intros Hback. specialize (Htr Hback).
           erewrite new_events_app; last first.
           { etrans; [apply Htr|]. cbn. rewrite <- !app_assoc. cbn. reflexivity. }
           split.
           ++ intros u.
              rewrite !releases_cons, !releases_app, !releases_cons, Hevs, Htail.
              destruct u; repeat case_decide; done.
           ++ intros _.
              change (EvConnect Primary (ping p) :: EvConnect Failover (ping p)
                      :: evs ++ EvMongoClose Failover :: EvMongoClose Primary :: tail)
                with (([EvConnect Primary (ping p); EvConnect Failover (ping p)]
                       ++ evs) ++ EvMongoClose Failover :: EvMongoClose Primary :: tail).
              apply before_adjacent; [done|].
              intros Hin. apply list_elem_of_split in Hin as (l1 & l2 & Hsplit).
              pose proof (f_equal (releases Primary) Hsplit) as Hcount.
              rewrite !releases_app, !releases_cons, Hevs in Hcount.
              repeat case_decide; try done; cbn in Hcount; lia.
        -- intros _. erewrite new_events_app; last first.
           { cbn. by rewrite <- !app_assoc. }
           split; [by intros []|done].
        -- intros _. erewrite new_events_app; last first.
           { cbn [snd]. rewrite emit_all_trace. cbn. by rewrite <- !app_assoc. }
           split; [by intros []|done].
      * destruct (Hend (emit (EvConnect Primary (ping p)) w) [Primary])
          as (evs & tail & Hevs & Htail & Htr).
        intros Hback. specialize (Htr Hback).
        erewrite new_events_app; last first.
        { etrans; [apply Htr|]. cbn. rewrite <- !app_assoc. cbn. reflexivity. }
        split; [|done].
        intros u.
        rewrite !releases_cons, !releases_app, !releases_cons, Hevs, Htail.
        destruct u; repeat case_decide; done.
    + intros _. erewrite new_events_app; [|by cbn]. split; [by intros []|done].
    + intros _. erewrite new_events_app; last first.
      { cbn [snd]. rewrite emit_all_trace. cbn. by rewrite <- !app_assoc. }
      split; [by intros []|done].
Qed.



(** ** The connections *)

Lemma sum_alter {A} (g : A → nat) (f : A → A) (l : list A) i x :
  l !! i = Some x →
  sum_list_with g (alter f i l) + g x = sum_list_with g l + g (f x).
Proof.
  revert i. induction l as [|y l IH]; intros [|i] H; cbn in *; simplify_eq.
  - lia.
  - specialize (IH _ H). lia.
Qed.

Lemma sum_alter_same {A} (g : A → nat) (f : A → A) (l : list A) i :
  (∀ x, l !! i = Some x → g (f x) = g x) →
  sum_list_with g (alter f i l) = sum_list_with g l.
Proof.
  revert i. induction l as [|y l IH]; intros [|i] Hg; cbn in *; [done..| |].
  - by rewrite Hg.
  - by rewrite IH.
Qed.

Lemma sum_lookup_le {A} (g : A → nat) (l : list A) i x :
  l !! i = Some x → g x ≤ sum_list_with g l.
Proof.
  revert i. induction l as [|y l IH]; intros [|i] H; cbn in *; simplify_eq.
  - lia.
  - specialize (IH _ H). lia.
Qed.

Lemma Forall_alter_ok {A} (P : A → Prop) (f : A → A) (l : list A) i :
  Forall P l → (∀ x, l !! i = Some x → P x → P (f x)) → Forall P (alter f i l).
Proof.
  intros Hl Hf. apply Forall_lookup. intros j y Hj.
  destruct (decide (i = j)) as [->|Hne].
  - rewrite list_lookup_alter_eq in Hj.
    destruct (l !! j) as [x|] eqn:E; cbn in Hj; simplify_eq.
    apply Hf; [done|]. by eapply (Forall_lookup_1 P l).
  - rewrite list_lookup_alter_ne in Hj by done. by eapply (Forall_lookup_1 P l).
Qed.

Lemma boot_conns_inv mask : conns_inv (boot mask).
Proof. by split_and!. Qed.

Lemma signalled_conns ch w :
  ch = ChQuit ∨ ch = ChKill →
  conns (signalled ch w) = conns w ∧ wg (signalled ch w) = wg w
  ∧ gauge (signalled ch w) = gauge w.
Proof.
  intros [-> | ->]; unfold signalled; cbn; by case_match.
Qed.

Lemma conns_inv_frame s s' :
  conns (world s') = conns (world s) → acceptor s' = acceptor s →
  wg (world s') = wg (world s) → gauge (world s') = gauge (world s) →
  (crashed s ≠ None → crashed s' ≠ None) →
  conns_inv s → conns_inv s'.
Proof.
  intros Hc Ha Hw Hg Hcr (H1 & H2 & H3 & H4 & H5). unfold conns_inv.
  rewrite Hc, Ha, Hw, Hg. split_and!; try done.
  intros c cn v E1 E2. apply Hcr. by eapply H5.
Qed.

(** A step of a goroutine of connection [c] keeps the invariant when it keeps
    it for [c]. *)
Lemma conns_inv_upd s s' c cn f :
  conns_inv s →
  conns (world s) !! c = Some cn →
  conns (world s') = alter f c (conns (world s)) →
  acceptor s' = acceptor s →
  conn_ok (f cn) →
  (sess cn = S_None ↔ sess (f cn) = S_None) →
  (watch cn = W_None → watch (f cn) = W_None) →
  (wg (world s') = wg (world s) + Z.of_nat (wg_live (f cn)) - Z.of_nat (wg_live cn))%Z →
  (gauge (world s')
   = gauge (world s) + Z.of_nat (gauge_live (f cn)) - Z.of_nat (gauge_live cn))%Z →
  (∀ v, sess (f cn) = S_Panicked v → crashed s' ≠ None) →
  (crashed s ≠ None → crashed s' ≠ None) →
  conns_inv s'.
Proof.
  intros (Hok & Hacc & Hwg & Hg & Hpan) Hc Hcs Ha Hfok Hsess Hwatch Hwg' Hg' Hp Hcr.
  unfold conns_inv. rewrite Hcs, Ha, Hwg', Hg'. split_and!.
  - apply Forall_alter_ok; [done|]. intros x Hx _. by simplify_eq.
  - unfold acceptor_ok in *. destruct (acceptor s) as [| | | | |c1|c1|c1|c1| | |];
      try done.
    + by rewrite Hacc in Hc.
    + by rewrite Hacc in Hc.
    + destruct Hacc as (cn1 & E1 & E2). destruct (decide (c = c1)) as [->|Hne].
      * simplify_eq. exists (f cn1). rewrite list_lookup_alter_eq, E1. naive_solver.
      * exists cn1. by rewrite list_lookup_alter_ne.
    + destruct Hacc as (cn1 & E1 & E2). destruct (decide (c = c1)) as [->|Hne].
      * simplify_eq. exists (f cn1). rewrite list_lookup_alter_eq, E1. naive_solver.
      * exists cn1. by rewrite list_lookup_alter_ne.
    + destruct Hacc as (cn1 & E1 & E2). destruct (decide (c = c1)) as [->|Hne].
      * simplify_eq. exists (f cn1). rewrite list_lookup_alter_eq, E1. naive_solver.
      * exists cn1. by rewrite list_lookup_alter_ne.
    + destruct Hacc as (cn1 & E1 & E2). destruct (decide (c = c1)) as [->|Hne].
      * simplify_eq. exists (f cn1). rewrite list_lookup_alter_eq, E1. naive_solver.
      * exists cn1. by rewrite list_lookup_alter_ne.
  - pose proof (sum_alter wg_live f _ _ _ Hc). lia.
  - pose proof (sum_alter gauge_live f _ _ _ Hc). lia.
  - intros c2 cn2 v E1 E2. destruct (decide (c = c2)) as [->|Hne].
    + rewrite list_lookup_alter_eq, Hc in E1. cbn in E1. simplify_eq. by eapply Hp.
    + rewrite list_lookup_alter_ne in E1 by done. apply Hcr. by eapply Hpan.
Qed.

Ltac conn_facts Hinv E :=
  let Hok := fresh "Hok" in
  let Hcn := fresh "Hcn" in
  let Hpn := fresh "Hpn" in
  pose proof (proj1 Hinv) as Hok;
  pose proof (Forall_lookup_1 _ _ _ _ Hok E) as Hcn;
  pose proof (λ v, proj2 (proj2 (proj2 (proj2 Hinv))) _ _ v E) as Hpn;
  unfold conn_ok in Hcn.

Ltac conn_solve :=
  unfold compose, conn_ok, wg_live, gauge_live in *; cbn in *;
  repeat match goal with
         | E1 : ?pc = sess _ |- _ => symmetry in E1
         | E1 : ?pc = watch _ |- _ => symmetry in E1
         end;
  repeat match goal with
         | E1 : sess _ = _ |- _ => rewrite E1 in *
         | E1 : watch _ = _ |- _ => rewrite E1 in *
         end;
  cbn in *;
  first [ done | lia | naive_solver | (repeat case_match; naive_solver) ].

Lemma step_conns_inv l s s' :
  conns_inv s → step_fn l s = Some s' → conns_inv s'.
Proof.
  intros Hinv H.
  step_cases H; step_simpl; rewrite ?list_alter_alter_eq;
    repeat match goal with
           | E : _ <$> conns _ !! _ = Some _ |- _ =>
               let cn := fresh "cn" in
               apply fmap_Some in E as (cn & ? & ?)
           end;
    simplify_eq.
  all: try (apply (conns_inv_frame s); [done..|by rewrite Hlive|done]).
  all: try (apply (conns_inv_frame s); step_simpl;
            [ apply signalled_conns; auto | done | apply signalled_conns; auto
            | apply signalled_conns; auto | by rewrite Hlive | done ]).
  all: try match goal with
    | E : conns (world ?s0) !! ?c = Some ?cn |- context [alter ?f ?c (conns (world ?s0))] =>
        conn_facts Hinv E;
        apply (conns_inv_upd s0 _ c cn f Hinv E); step_simpl;
          [ reflexivity | reflexivity | .. ]; conn_solve
    end.
  all: destruct Hinv as (Hok & Hacc & Hwg & Hg & Hpan);
    unfold conns_inv; step_simpl;
    repeat match goal with
           | E : acceptor _ = _ |- _ => rewrite E in *; clear E
           end;
    cbn [acceptor_ok wg_pending gauge_pending acceptor_panic] in *; simplify_eq.
  all: try (split_and!; first [done | lia]).
  all: try (rewrite Hacc in *; cbn; split_and!; first [done | lia]).
  all: try (case_bool_decide; cbn; split_and!; first [done | lia]).
  - (* go session *)
    destruct Hacc as (cn & Ec & Es).
    pose proof (Forall_lookup_1 _ _ _ _ Hok Ec) as Hcn. unfold conn_ok in Hcn.
    rewrite Es in Hcn. destruct Hcn as [Hd Hw].
    pose proof (sum_alter wg_live (set_sess S_LogAccept) _ _ _ Ec) as Hs1.
    pose proof (sum_alter gauge_live (set_sess S_LogAccept) _ _ _ Ec) as Hs2.
    assert (wg_live cn = 0 ∧ wg_live (set_sess S_LogAccept cn) = 1
            ∧ gauge_live cn = 0 ∧ gauge_live (set_sess S_LogAccept cn) = 1)
      as (W0 & W1 & G0 & G1) by (unfold wg_live, gauge_live; cbn; by rewrite Es).
    rewrite W0, W1 in Hs1. rewrite G0, G1 in Hs2.
    split_and!.
    + apply Forall_alter_ok; [done|]. intros x Hx _. simplify_eq. by unfold conn_ok.
    + exists (set_sess S_LogAccept cn). by rewrite list_lookup_alter_eq, Ec.
    + lia.
    + lia.
    + intros c0 cn0 v E1 E2. destruct (decide (c = c0)) as [->|Hne].
      * rewrite list_lookup_alter_eq, Ec in E1. cbn in E1. by simplify_eq.
      * rewrite list_lookup_alter_ne in E1 by done. by eapply Hpan.
  - (* go watcher *)
    destruct Hacc as (cn & Ec & Ew & Es).
    pose proof (Forall_lookup_1 _ _ _ _ Hok Ec) as Hcn. unfold conn_ok in Hcn.
    rewrite !(sum_alter_same _ (set_watch W_Select)) by done.
    split_and!; [|done..|].
    + apply Forall_alter_ok; [done|]. intros x Hx _. simplify_eq.
      unfold conn_ok. cbn. by destruct (sess cn).
    + intros c0 cn0 v E1 E2. destruct (decide (c = c0)) as [->|Hne].
      * rewrite list_lookup_alter_eq, Ec in E1. cbn in E1. simplify_eq.
        by eapply Hpan.
      * rewrite list_lookup_alter_ne in E1 by done. by eapply Hpan.
  - (* accepted *)
    rewrite !sum_list_with_app. cbn. split_and!.
    + apply Forall_app. split; [done|]. by repeat constructor.
    + eexists. by rewrite lookup_app_r, Nat.sub_diag.
    + lia.
    + lia.
    + intros c cn v [E1|[_ E1]]%lookup_app_Some E2; [by eapply Hpan|].
      apply list_lookup_singleton_Some in E1 as [_ <-]. done.
Qed.

Lemma reachable_conns_inv s : reachable s → conns_inv s.
Proof.
  intros [mask H].
  eapply (rtc_step_invariant conns_inv); [|done|apply boot_conns_inv].
  intros l s1 s2. apply step_conns_inv.
Qed.

(** ** The events of a session *)

Lemma session_trace_app c t1 t2 :
  session_trace c (t1 ++ t2) = session_trace c t1 ++ session_trace c t2.
Proof. apply filter_app. Qed.

Lemma session_trace_snoc c t e :
  session_trace c (t ++ [e])
  = session_trace c t ++ (if decide (ev_session e = Some c) then [e] else []).
Proof.
  rewrite session_trace_app. reflexivity.
Qed.

Lemma boot_events_inv mask : events_inv (boot mask).
Proof. intros c. by exists 0. Qed.

(** A step of another goroutine, or a step that adds no event to the life
    of a session and leaves the sessions where they are. *)
Lemma events_inv_frame s s' evs :
  events_inv s →
  trace (world s') = trace (world s) ++ evs →
  Forall (λ e, ev_session e = None) evs →
  (∀ c, sess <$> conns (world s') !! c = sess <$> conns (world s) !! c) →
  (∀ c, acceptor s' = A_GoSession c ↔ acceptor s = A_GoSession c) →
  events_inv s'.
Proof.
  intros Hinv Htr Hevs Hsess Hacc c. destruct (Hinv c) as (n & Hn & Hr).
  exists n. split.
  - rewrite Htr, session_trace_app, Hn.
    assert (session_trace c evs = []) as Hnil.
    { unfold session_trace. clear Htr. induction Hevs as [|e evs He _ IH]; [done|].
      rewrite filter_cons, IH. rewrite decide_False; [done|]. by rewrite He. }
    by rewrite Hnil, app_nil_r.
  - specialize (Hsess c).
    destruct (conns (world s') !! c) as [cn'|], (conns (world s) !! c) as [cn|];
      cbn in Hsess; simplify_eq; [|done].
    rewrite Hsess. unfold session_rank in *. destruct (sess cn); try done.
    specialize (Hacc c). repeat case_decide; naive_solver.
Qed.

(** A step that is about connection [c] only. *)
Lemma events_inv_at s s' c evs :
  events_inv s →
  trace (world s') = trace (world s) ++ evs →
  Forall (λ e, ev_session e = None ∨ ev_session e = Some c) evs →
  (∀ c', c' ≠ c → sess <$> conns (world s') !! c' = sess <$> conns (world s) !! c') →
  (∀ c', c' ≠ c → acceptor s' = A_GoSession c' ↔ acceptor s = A_GoSession c') →
  (∀ n, match conns (world s) !! c with
        | Some cn => session_rank (acceptor s) c (sess cn) n
        | None => n = 0
        end →
        ∃ n', take n (session_events c) ++ session_trace c evs
              = take n' (session_events c)
              ∧ match conns (world s') !! c with
                | Some cn => session_rank (acceptor s') c (sess cn) n'
                | None => n' = 0
                end) →
  events_inv s'.
Proof.
  intros Hinv Htr Hevs Hsess Hacc Hc c'. destruct (Hinv c') as (n & Hn & Hr).
  destruct (decide (c' = c)) as [->|Hne].
  - destruct (Hc n Hr) as (n' & Hn' & Hr'). exists n'. split; [|done].
    by rewrite Htr, session_trace_app, Hn.
  - exists n. split.
    + rewrite Htr, session_trace_app, Hn.
      assert (session_trace c' evs = []) as Hnil.
      { unfold session_trace. clear Htr Hc.
        induction Hevs as [|e evs He _ IH]; [done|].
        rewrite filter_cons, IH. rewrite decide_False; [done|].
        destruct He as [He|He]; rewrite He; congruence. }
      by rewrite Hnil, app_nil_r.
    + specialize (Hsess c' Hne). specialize (Hacc c' Hne).
      destruct (conns (world s') !! c') as [cn'|], (conns (world s) !! c') as [cn|];
        cbn in Hsess; simplify_eq; [|done].
      rewrite Hsess. unfold session_rank in *. destruct (sess cn); try done.
      repeat case_decide; naive_solver.
Qed.

Lemma session_trace_single c e :
  session_trace c [e] = if decide (ev_session e = Some c) then [e] else [].
Proof. reflexivity. Qed.

Lemma sess_alter_same (f : Conn → Conn) c c' (l : list Conn) :
  (∀ cn, sess (f cn) = sess cn) →
  sess <$> alter f c l !! c' = sess <$> l !! c'.
Proof.
  intros Hf. destruct (decide (c = c')) as [->|Hne].
  - rewrite list_lookup_alter_eq. destruct (l !! c'); cbn; [|done]. by rewrite Hf.
  - by rewrite list_lookup_alter_ne.
Qed.

Lemma lookup_snoc_ne {A} (l : list A) x c :
  c ≠ length l → (l ++ [x]) !! c = l !! c.
Proof.
  intros Hne. destruct (decide (c < length l)) as [Hlt|Hge].
  - by rewrite lookup_app_l.
  - rewrite !lookup_ge_None_2; [done|lia|rewrite length_app; cbn; lia].
Qed.

Lemma signalled_session ch w :
  ch = ChQuit ∨ ch = ChKill →
  ∃ evs, trace (signalled ch w) = trace w ++ evs
         ∧ Forall (λ e, ev_session e = None) evs.
Proof.
  intros Hch. unfold signalled.
  destruct (chan_state ch w) as [[|]|].
  - exists [EvChanClose ch]. cbn. rewrite set_chan_trace. split; [done|].
    repeat constructor. by destruct Hch as [-> | ->].
  - exists []. by rewrite app_nil_r.
  - exists []. by rewrite app_nil_r.
Qed.

Ltac events_frame s :=
  eapply (events_inv_frame s);
  [ done
  | step_simpl; first [reflexivity | symmetry; apply app_nil_r]
  | by repeat constructor
  | intros ?; step_simpl; first [done | by apply sess_alter_same]
  | intros ?; step_simpl;
    repeat match goal with
           | E : acceptor _ = _ |- _ => rewrite E
           end;
    repeat case_bool_decide; naive_solver ].

Ltac events_at s c :=
  eapply (events_inv_at s _ c);
  [ done
  | step_simpl; first [reflexivity | symmetry; apply app_nil_r]
  | repeat (apply Forall_cons; split; [cbn; first [by left | by right]|]);
    by apply Forall_nil
  | intros ? ?; step_simpl; rewrite ?list_lookup_alter_ne by done;
    first [done | by rewrite lookup_snoc_ne by done]
  | intros ? ?; step_simpl;
    repeat match goal with
           | E : acceptor _ = _ |- _ => rewrite E
           end;
    naive_solver
  | ].

Lemma step_events_inv l s s' :
  conns_inv s → events_inv s → step_fn l s = Some s' → events_inv s'.
Proof.
  intros Hcinv Hinv H.
  step_cases H; step_simpl; rewrite ?list_alter_alter_eq;
    repeat match goal with
           | E : _ <$> conns _ !! _ = Some _ |- _ =>
               let cn := fresh "cn" in
               apply fmap_Some in E as (cn & ? & ?)
           end;
    simplify_eq.
  all: try (events_frame s; fail).
  all: try match goal with
    | |- context [signalled ?ch (world ?s0)] =>
        destruct (signalled_session ch (world s0)) as (evs & Htr & Hevs); [by auto|];
        eapply (events_inv_frame s0 _ evs);
        [ done | exact Htr | done
        | intros ?; step_simpl; unfold signalled; by repeat case_match
        | intros ?; step_simpl; done ]
    end.
  all: try match goal with
    | E : conns (world ?s0) !! ?c = Some ?cn |- _ =>
        events_at s0 c; step_simpl;
        rewrite E, ?list_lookup_alter_eq, ?E; cbn;
        repeat match goal with
               | E1 : ?pc = sess _ |- _ => symmetry in E1
               end;
        repeat match goal with
               | E1 : sess _ = _ |- _ => rewrite E1
               end;
        unfold session_rank; intros n Hn;
        rewrite ?session_trace_single;
        first [ rewrite decide_True by done | rewrite decide_False by done | idtac ];
        first [ subst n;
                first [exists 0; split; [reflexivity|done]
                      |exists 1; split; [reflexivity|done]
                      |exists 2; split; [reflexivity|done]
                      |exists 3; split; [reflexivity|done]
                      |exists 4; split; [reflexivity|done]
                      |exists 5; split; [reflexivity|done]]
              | exists n; split; [by rewrite app_nil_r | lia] ]
    end.
  - destruct Hcinv as (_ & Hacc & _). rewrite E in Hacc.
    destruct Hacc as (cn & Ec & Es).
    events_at s c. step_simpl. rewrite Ec, Es, E. unfold session_rank.
    intros n ->. rewrite session_trace_single.
    rewrite (decide_False (P := A_Opened c = A_GoSession c)) by done.
    rewrite (decide_True (P := A_GoSession c = A_GoSession c)) by done.
    cbn [ev_session]. rewrite decide_True by done. by exists 1.
  - destruct Hcinv as (_ & Hacc & _). rewrite E in Hacc.
    destruct Hacc as (cn & Ec & Es).
    events_at s c. step_simpl. rewrite list_lookup_alter_eq, Ec, E. cbn.
    rewrite Es. unfold session_rank.
    intros n ->. rewrite !decide_True by done. by exists 2.
  - events_at s (length (conns (world s))). step_simpl.
    rewrite lookup_ge_None_2 by done. rewrite lookup_app_r, Nat.sub_diag by done.
    cbn. intros n ->. exists 0. split; [done|]. by rewrite decide_False.
Qed.

Lemma reachable_events_inv s : reachable s → events_inv s.
Proof.
  intros [mask H].
  pose proof (rtc_step_invariant (λ s, conns_inv s ∧ events_inv s)) as Hind.
  eapply Hind; [|done|split; [apply boot_conns_inv|apply boot_events_inv]].
  intros l s1 s2 [H1 H2] Hstep. split.
  - by eapply step_conns_inv.
  - by eapply step_events_inv.
Qed.


(** *** The socket is closed before [done] *)

Lemma boot_close_inv mask : close_inv (boot mask).
Proof.
  split.
  - intros c cn H. done.
  - intros c [|e pre] post H; cbn in H; discriminate H.
Qed.

(** A step that is about connection [c] only. *)
Lemma close_inv_at s s' c evs :
  close_inv s →
  trace (world s') = trace (world s) ++ evs →
  (∀ c', c' ≠ c → sess <$> conns (world s') !! c' = sess <$> conns (world s) !! c') →
  (∀ pc', sess <$> conns (world s') !! c = Some pc' → past_close pc' = true →
     (∃ pc, sess <$> conns (world s) !! c = Some pc ∧ past_close pc = true)
     ∨ ∃ ok, EvConnClose c ok ∈ evs) →
  Forall (λ e, ∀ c', e = EvChanClose (ChDone c') →
            ∃ pc, sess <$> conns (world s) !! c' = Some pc ∧ past_close pc = true) evs →
  close_inv s'.
Proof.
  intros [HA HB] Htr Hne Hc Hevs.
  assert (∀ c' pc, sess <$> conns (world s) !! c' = Some pc → past_close pc = true →
            ∃ ok, EvConnClose c' ok ∈ trace (world s)) as HA'.
  { intros c' pc (cn & E & ->)%fmap_Some Hp. by eapply HA. }
  split.
  - intros c' cn' E Hp. rewrite Htr.
    assert (sess <$> conns (world s') !! c' = Some (sess cn')) as E' by by rewrite E.
    destruct (decide (c' = c)) as [->|Hc'].
    + destruct (Hc _ E' Hp) as [(pc & Epc & Hpc)|[ok Hok]].
      * destruct (HA' _ _ Epc Hpc) as [ok Hok]. exists ok. set_solver.
      * exists ok. set_solver.
    + rewrite Hne in E' by done.
      destruct (HA' _ _ E' Hp) as [ok Hok]. exists ok. set_solver.
  - intros c' pre post Hsplit. rewrite Htr in Hsplit.
    assert (EvChanClose (ChDone c') ∈ evs →
            ∃ ok, EvConnClose c' ok ∈ trace (world s)) as Hnew.
    { intros Hin. rewrite Forall_forall in Hevs.
      destruct (Hevs _ Hin c' eq_refl) as (pc & Epc & Hpc). by eapply HA'. }
    apply app_eq_inv in Hsplit as [(k & Ht & Hk)|(k & Hp & Hk)].
    + destruct k as [|e k]; cbn in Hk.
      * rewrite app_nil_r in Ht. subst pre. apply Hnew. rewrite <- Hk. set_solver.
      * simplify_eq. by eapply HB.
    + destruct Hnew as [ok Hok]; [rewrite Hk; set_solver|].
      exists ok. rewrite Hp. set_solver.
Qed.

(** A step that leaves the sessions where they are. *)
Lemma close_inv_frame s s' evs :
  close_inv s →
  trace (world s') = trace (world s) ++ evs →
  (∀ c, sess <$> conns (world s') !! c = sess <$> conns (world s) !! c) →
  Forall (λ e, ∀ c, e ≠ EvChanClose (ChDone c)) evs →
  close_inv s'.
Proof.
  intros Hinv Htr Hsess Hevs. eapply (close_inv_at s s' 0 evs); [done..| | |].
  - intros c' _. apply Hsess.
  - intros pc' E Hp. left. exists pc'. by rewrite <- Hsess.
  - eapply Forall_impl; [exact Hevs|]. intros e He c' ->. by destruct (He c').
Qed.

Lemma signalled_close ch w :
  ch = ChQuit ∨ ch = ChKill →
  ∃ evs, trace (signalled ch w) = trace w ++ evs
         ∧ Forall (λ e, ∀ c, e ≠ EvChanClose (ChDone c)) evs
         ∧ conns (signalled ch w) = conns w.
Proof.
  intros Hch. unfold signalled.
  destruct (chan_state ch w) as [[|]|].
  - exists [EvChanClose ch]. cbn. rewrite set_chan_trace. split; [done|]. split.
    + repeat constructor. by destruct Hch as [-> | ->].
    + by destruct Hch as [-> | ->].
  - exists []. by rewrite app_nil_r.
  - exists []. by rewrite app_nil_r.
Qed.

Ltac close_frame s :=
  eapply (close_inv_frame s);
  [ done
  | step_simpl; first [reflexivity | symmetry; apply app_nil_r]
  | intros ?; step_simpl; first [done | by apply sess_alter_same]
  | by repeat constructor ].

Ltac close_at s c :=
  eapply (close_inv_at s _ c);
  [ done
  | step_simpl; first [reflexivity | symmetry; apply app_nil_r]
  | intros ? ?; step_simpl; rewrite ?list_lookup_alter_ne by done;
    first [done | by rewrite lookup_snoc_ne by done]
  | | ].

Ltac sess_rewrite :=
  repeat match goal with
         | E1 : ?pc = sess _ |- _ => symmetry in E1
         end;
  repeat match goal with
         | E1 : sess _ = _ |- _ => rewrite E1
         end.

Ltac sess_rewrite_all :=
  repeat match goal with
         | E1 : ?pc = sess _ |- _ => symmetry in E1
         end;
  repeat match goal with
         | E1 : sess _ = _ |- _ => rewrite E1 in *
         end.

Lemma step_close_inv l s s' :
  close_inv s → step_fn l s = Some s' → close_inv s'.
Proof.
  intros Hinv H.
  step_cases H; step_simpl; rewrite ?list_alter_alter_eq;
    repeat match goal with
           | E : _ <$> conns _ !! _ = Some _ |- _ =>
               let cn := fresh "cn" in
               apply fmap_Some in E as (cn & ? & ?)
           end;
    simplify_eq.
  all: try (close_frame s; fail).
  all: try match goal with
    | |- context [signalled ?ch (world ?s0)] =>
        destruct (signalled_close ch (world s0)) as (evs & Htr & Hevs & Hcs); [by auto|];
        eapply (close_inv_frame s0 _ evs);
        [ done | exact Htr | intros ?; step_simpl; by rewrite Hcs | done ]
    end.
  all: try match goal with
    | E : conns (world ?s0) !! ?c = Some ?cn |- _ =>
        close_at s0 c;
        [ step_simpl; rewrite ?list_lookup_alter_eq, E; cbn; sess_rewrite;
          intros pc' ? ?; simplify_eq;
          first [ done | left; by eexists | right; eexists; set_solver ]
        | repeat (apply Forall_cons; split;
                  [intros ? Heq;
                   first [ discriminate Heq
                         | simplify_eq; rewrite E; cbn; sess_rewrite; by eexists ]|]);
          by apply Forall_nil ]
    end.
  - close_at s c.
    + step_simpl. rewrite list_lookup_alter_eq. intros pc' Hpc Hp.
      destruct (conns (world s) !! c); cbn in Hpc; simplify_eq.
    + by repeat constructor.
  - close_at s (length (conns (world s))).
    + step_simpl. rewrite lookup_app_r, Nat.sub_diag by done. cbn.
      intros pc' ? ?. by simplify_eq.
    + by repeat constructor.
  - close_at s c.
    + intros pc' _ _. right. exists (sock_open c0). step_simpl. by constructor.
    + by repeat constructor.
Qed.

Lemma reachable_close_inv s : reachable s → close_inv s.
Proof.
  intros [mask H].
  eapply (rtc_step_invariant close_inv); [|done|apply boot_close_inv].
  intros l s1 s2 H1 Hstep. by eapply step_close_inv.
Qed.

(** ** The session of a connection (C1) *)

(** C1, as the claim states it, fails: a panic that leaves the handler is
    not recovered in the session goroutine.  In a process that serves one
    connection the panic ends the process: the socket of the connection is
    still open, [done] is still open, and no goroutine takes a step any
    more. *)
Lemma handler_panic_ends_process :
  reachable handler_panic_process
  ∧ sess <$> conns (world session_process) !! 0 = Some S_Handle
  ∧ step_fn (LHandler 0 (HandlerPanics handler_panic)) session_process
    = Some handler_panic_process
  ∧ crashed handler_panic_process = Some handler_panic
  ∧ sock_open <$> conns (world handler_panic_process) !! 0 = Some true
  ∧ done <$> conns (world handler_panic_process) !! 0 = Some ChOpen
  ∧ (∀ l, step_fn l handler_panic_process = None)
  ∧ (∀ s', rtc step handler_panic_process s' → s' = handler_panic_process).
Proof.
  assert (∀ l, step_fn l handler_panic_process = None) as Hstop.
  { intros l. unfold step_fn.
    by replace (crashed handler_panic_process) with (Some handler_panic)
      by reflexivity. }
  split_and!; [|reflexivity..|done|].
  - do 2 apply run_schedule_reachable. apply boot_reachable.
  - intros s' [<-|(s1 & [l Hl] & _)]%rtc_inv; [done|].
    by rewrite Hstop in Hl.
Qed.

(** C1 (amended).  When the call of the handler returns, the session closes
    the socket of the connection ([c.Close()], whatever it returns), logs,
    and then closes [done]: each of these steps can be taken, none of them
    ends the process.  In every state of a running process a connection
    whose [done] is closed has its socket closed, and every close of [done]
    in the trace has a close of the socket by [c.Close()] before it.  The
    session has no recovery of its own: a panic that leaves the handler ends
    the process, with the socket and [done] as they were. *)
Theorem session_closes_then_done s c cn :
  reachable s → crashed s = None → conns (world s) !! c = Some cn →
  (sess cn = S_Handle →
     (∃ s', step_fn (LHandler c HandlerReturns) s = Some s'
            ∧ crashed s' = None
            ∧ trace (world s') = trace (world s)
            ∧ conns (world s') !! c = Some (set_sess S_Close cn))
     ∧ (∀ v, ∃ s', step_fn (LHandler c (HandlerPanics v)) s = Some s'
                   ∧ crashed s' = Some v
                   ∧ conns (world s') !! c = Some (set_sess (S_Panicked v) cn)
                   ∧ ∀ l, step_fn l s' = None))
  ∧ (sess cn = S_Close →
       session_step s c (EvConnClose c (sock_open cn))
         (set_sess S_LogClose (set_sock false cn)))
  ∧ (sess cn = S_LogClose →
       session_step s c (EvLog Info "Close" (conn_logger (remote cn)))
         (set_sess S_CloseDone cn))
  ∧ (sess cn = S_CloseDone →
       session_step s c (EvChanClose (ChDone c))
         (set_sess S_WgDone (set_done ChClosed cn)))
  ∧ (done cn = ChClosed → sock_open cn = false)
  ∧ (∀ pre post, trace (world s) = pre ++ EvChanClose (ChDone c) :: post →
       ∃ ok, EvConnClose c ok ∈ pre).
Proof.
  intros Hs Hlive E.
  pose proof (reachable_conns_inv s Hs) as Hinv.
  pose proof (reachable_close_inv s Hs) as [_ Hclose].
  conn_facts Hinv E.
  split_and!.
  - intros Hpc. split; [|intros v]; eexists; unfold step_fn, step_handler;
      rewrite Hlive, E; cbn; rewrite Hpc; (split; [reflexivity|]); step_simpl;
      rewrite list_lookup_alter_eq, E; split_and!; try done.
  - intros Hpc. eexists. unfold step_fn, step_session. rewrite Hlive, E. cbn.
    rewrite Hpc. go_unfold_goal. cbn. rewrite E. cbn. split; [reflexivity|].
    step_simpl. rewrite list_alter_alter_eq, list_lookup_alter_eq, E. done.
  - intros Hpc. eexists. unfold step_fn, step_session. rewrite Hlive, E. cbn.
    rewrite Hpc. go_unfold_goal. cbn. split; [reflexivity|].
    step_simpl. rewrite list_lookup_alter_eq, E. done.
  - intros Hpc. rewrite Hpc in Hcn. destruct Hcn as [Hd Hsock].
    eexists. unfold step_fn, step_session. rewrite Hlive, E. cbn.
    rewrite Hpc. go_unfold_goal. cbn. rewrite E. cbn. rewrite Hd. cbn.
    split; [reflexivity|].
    step_simpl. rewrite list_alter_alter_eq, list_lookup_alter_eq, E. done.
  - intros Hd. destruct (sess cn) as [| | | | | | | | |v] eqn:Hpc; try (intuition congruence).
    exfalso. by apply (Hpn v).
  - intros pre post. apply Hclose.
Qed.

Lemma session_closes_then_done_witness :
  reachable closing_process
  ∧ crashed closing_process = None
  ∧ conns (world closing_process) !! 0 = Some closing_conn
  ∧ session_step closing_process 0 (EvChanClose (ChDone 0))
      (set_sess S_WgDone (set_done ChClosed closing_conn)).
Proof.
  assert (reachable closing_process) as Hs
    by (do 2 apply run_schedule_reachable; apply boot_reachable).
  split; [exact Hs|]. split; [reflexivity|]. split; [reflexivity|].
  destruct (session_closes_then_done closing_process 0 closing_conn
              Hs eq_refl eq_refl) as (_ & _ & _ & Hdone & _).
  exact (Hdone eq_refl).
Defined.

(** ** The watcher of a connection (C6) *)




Lemma lookup_alter_inv {A} (f : A → A) (l : list A) c c' y :
  alter f c l !! c' = Some y →
  ∃ x, l !! c' = Some x ∧ ((c' ≠ c ∧ y = x) ∨ (c' = c ∧ y = f x)).
Proof.
  intros H. destruct (decide (c' = c)) as [->|Hne].
  - rewrite list_lookup_alter_eq in H. apply fmap_Some in H as (x & Hx & ->).
    exists x. auto.
  - rewrite list_lookup_alter_ne in H by done. exists y. auto.
Qed.






(** ** The gauge of open connections (C9) *)

Lemma count_session_trace c e t :
  ev_session e = Some c →
  count_occ Event_eq_dec (session_trace c t) e = count_occ Event_eq_dec t e.
Proof.
  intros He. unfold session_trace. induction t as [|x t IH]; [done|].
  rewrite filter_cons. destruct (decide (ev_session x = Some c)) as [Hx|Hx].
  - cbn. rewrite IH. done.
  - rewrite IH. cbn. destruct (Event_eq_dec x e) as [->|_]; [done|done].
Qed.

Lemma before_session_trace c a b t :
  ev_session b = Some c →
  before a b (session_trace c t) → before a b t.
Proof.
  intros Hb H pre post ->.
  specialize (H (session_trace c pre) (session_trace c post)).
  rewrite session_trace_app in H. unfold session_trace in H at 2.
  rewrite filter_cons, decide_True in H by done.
  specialize (H eq_refl). by apply list_elem_of_filter in H as [_ H].
Qed.

Lemma before_take a b (l : list Event) n :
  before a b l → before a b (take n l).
Proof.
  intros H pre post Hsplit. apply (H pre (post ++ drop n l)).
  by rewrite <- (take_drop n l) at 1; rewrite Hsplit, <- app_assoc.
Qed.

Lemma session_events_NoDup c : NoDup (session_events c).
Proof.
  unfold session_events.
  repeat (apply NoDup_cons; split; [set_solver|]). apply NoDup_nil_2.
Qed.

Lemma session_events_order c :
  before (EvOpened c) (EvGo (GSession c)) (session_events c)
  ∧ before (EvOpened c) (EvClosed c) (session_events c)
  ∧ before (EvGo (GSession c)) (EvChanClose (ChDone c)) (session_events c)
  ∧ before (EvChanClose (ChDone c)) (EvClosed c) (session_events c)
  ∧ before (EvWgDone c) (EvClosed c) (session_events c).
Proof.
  unfold before, session_events.
  split_and!; intros [|e1 [|e2 [|e3 [|e4 [|e5 pre]]]]] post H;
    simplify_eq; try set_solver.
  all: by destruct pre.
Qed.

Lemma session_events_counts c n :
  count_occ Event_eq_dec (take n (session_events c)) (EvOpened c)
    = (if decide (1 ≤ n) then 1 else 0)
  ∧ count_occ Event_eq_dec (take n (session_events c)) (EvGo (GSession c))
    = (if decide (2 ≤ n) then 1 else 0)
  ∧ count_occ Event_eq_dec (take n (session_events c)) (EvClosed c)
    = (if decide (5 ≤ n) then 1 else 0).
Proof.
  unfold session_events.
  destruct n as [|[|[|[|[|[|n]]]]]]; cbn [take count_occ];
    repeat match goal with
           | |- context [Event_eq_dec ?a ?b] =>
               destruct (Event_eq_dec a b); [simplify_eq|]
           end;
    try done; split_and!; repeat case_decide; first [done | lia].
Qed.

Lemma sum_list_with_zero {A} (g : A → nat) (l : list A) :
  (∀ i x, l !! i = Some x → g x = 0) → sum_list_with g l = 0.
Proof.
  induction l as [|y l IH]; intros H; cbn; [done|].
  rewrite (H 0 y eq_refl), IH; [done|]. intros i x Hi. by apply (H (S i)).
Qed.

(** C9, as the claim states it, fails: when the acceptor has called
    [opened(...)] for a connection (line 178) and has not yet started its
    session (line 179), no session is running and the gauge is 1. *)
Lemma gauge_before_session_start :
  reachable counted_process
  ∧ crashed counted_process = None
  ∧ acceptor counted_process = A_GoSession 0
  ∧ sess <$> conns (world counted_process) = [S_None]
  ∧ no_session_running counted_process
  ∧ gauge (world counted_process) = 1%Z.
Proof.
  split_and!; try reflexivity.
  - apply run_schedule_reachable, boot_reachable.
  - intros [|c] cn E; [|done]. apply Some_inj in E as <-. by left.
Qed.

(** C9 (amended).  The gauge counts the connections for which [opened] has
    been called and [closed] has not: it is never negative, and when no
    session is running it is zero, except between the [opened(...)] of a
    connection and the start of its session, where it is one.  For every
    connection [opened] is called at most
    once, before the session is started, and [closed] at most once, after
    [opened], after the session has closed [done] and after its
    [wg.Done()]: exactly once each for a session that has been started,
    respectively has come to its end. *)
Theorem gauge_counts s :
  reachable s →
  (0 ≤ gauge (world s))%Z
  ∧ gauge (world s)
    = Z.of_nat (sum_list_with gauge_live (conns (world s)) + gauge_pending (acceptor s))
  ∧ (no_session_running s →
       gauge (world s) = if starting s then 1%Z else 0%Z)
  ∧ (∀ c,
       opened_count c (trace (world s)) ≤ 1
       ∧ started_count c (trace (world s)) ≤ opened_count c (trace (world s))
       ∧ closed_count c (trace (world s)) ≤ started_count c (trace (world s))
       ∧ before (EvOpened c) (EvGo (GSession c)) (trace (world s))
       ∧ before (EvOpened c) (EvClosed c) (trace (world s))
       ∧ before (EvChanClose (ChDone c)) (EvClosed c) (trace (world s))
       ∧ before (EvWgDone c) (EvClosed c) (trace (world s)))
  ∧ (∀ c cn, conns (world s) !! c = Some cn →
       (sess cn ≠ S_None →
          opened_count c (trace (world s)) = 1
          ∧ started_count c (trace (world s)) = 1)
       ∧ (sess cn = S_Exit → closed_count c (trace (world s)) = 1)
       ∧ (sess cn ≠ S_Exit → closed_count c (trace (world s)) = 0)).
Proof.
  intros Hs.
  pose proof (reachable_conns_inv s Hs) as (Hok & Hacc & Hwg & Hg & Hpan).
  pose proof (reachable_events_inv s Hs) as Hev.
  assert (∀ c, ∃ n,
            opened_count c (trace (world s)) = (if decide (1 ≤ n) then 1 else 0)
            ∧ started_count c (trace (world s)) = (if decide (2 ≤ n) then 1 else 0)
            ∧ closed_count c (trace (world s)) = (if decide (5 ≤ n) then 1 else 0)
            ∧ match conns (world s) !! c with
              | Some cn => session_rank (acceptor s) c (sess cn) n
              | None => n = 0
              end) as Hcount.
  { intros c. destruct (Hev c) as (n & Hn & Hr). exists n.
    unfold opened_count, started_count, closed_count.
    rewrite <- (count_session_trace c (EvOpened c)) by done.
    rewrite <- (count_session_trace c (EvGo (GSession c))) by done.
    rewrite <- (count_session_trace c (EvClosed c)) by done.
    rewrite Hn.
    pose proof (session_events_counts c n) as (-> & -> & ->). done. }
  split_and!.
  - lia.
  - done.
  - intros Hq. rewrite Hg.
    rewrite sum_list_with_zero.
    + unfold gauge_pending, starting. by destruct (acceptor s).
    + intros i cn Hi. unfold gauge_live. by destruct (Hq i cn Hi) as [-> | ->].
  - intros c. destruct (Hcount c) as (n & -> & -> & -> & _).
    destruct (Hev c) as (m & Hm & _).
    pose proof (session_events_order c) as (O1 & O2 & _ & O4 & O5).
    split_and!; try (repeat case_decide; lia).
    all: apply (before_session_trace c); [done|]; rewrite Hm; by apply before_take.
  - intros c cn E. destruct (Hcount c) as (n & -> & -> & -> & Hr).
    rewrite E in Hr. unfold session_rank in Hr.
    split_and!; intros Hpc; destruct (sess cn); try done;
      repeat case_decide; try lia.
Qed.

Lemma gauge_counts_witness :
  reachable served_process
  ∧ no_session_running served_process
  ∧ gauge (world served_process) = 0%Z
  ∧ opened_count 0 (trace (world served_process)) = 1
  ∧ closed_count 0 (trace (world served_process)) = 1
  ∧ before (EvOpened 0) (EvClosed 0) (trace (world served_process)).
Proof.
  assert (reachable served_process) as Hs
    by (do 2 apply run_schedule_reachable; apply boot_reachable).
  assert (no_session_running served_process) as Hq.
  { intros [|c] cn H; [|done]. apply Some_inj in H as <-. by right. }
  destruct (gauge_counts served_process Hs) as (_ & _ & Hzero & Hall & Hconn).
  destruct (Hall 0) as (_ & _ & _ & _ & Hbefore & _).
  destruct (Hconn 0 _ eq_refl) as (Hopened & Hclosed & _).
  split; [exact Hs|]. split; [exact Hq|]. split; [exact (Hzero Hq)|].
  split; [exact (proj1 (Hopened ltac:(done)))|].
  split; [exact (Hclosed eq_refl) | exact Hbefore].
Defined.

(** ** The supervisor on example environments *)

Lemma crash_supervision_witness :
  ∃ w1, call None (serve tcp_proxy crash_env) (NewProxy_world 18)
        = (Panicked "runtime error: index out of range", w1)
        ∧ exec (Run tcp_proxy crash_env) (NewProxy_world 18)
          = (Ret None,
             emit_all [EvLog Error "Crashed"
                         [FPanic "runtime error: index out of range"; FStack];
                       EvSleep 1000000000;
                       EvLog Info "Restarting" [FSleep 1000000000];
                       EvGo GRestart] w1).
Proof.
  assert (∃ w1, call None (serve tcp_proxy crash_env) (NewProxy_world 18)
                = (Panicked "runtime error: index out of range", w1)) as [w1 E].
  { eexists (call None (serve tcp_proxy crash_env) (NewProxy_world 18)).2.
    vm_compute. reflexivity. }
  exists w1. split; [exact E|].
  exact (proj1 (proj2 (crash_supervision tcp_proxy crash_env (NewProxy_world 18)))
           _ w1 E).
Defined.

Lemma run_upstreams_witness :
  connectFailover failover_failure_env = ConnectErr "server selection timeout"
  ∧ (exec (Run unix_proxy failover_failure_env) (NewProxy_world 18)).1
    = Ret (Some "server selection timeout")
  ∧ new_events (NewProxy_world 18)
      (exec (Run unix_proxy failover_failure_env) (NewProxy_world 18)).2
    = [EvConnect Primary true; EvConnect Failover true; EvMongoClose Primary].
Proof.
  split; [reflexivity|].
  destruct (run_upstreams unix_proxy failover_failure_env (NewProxy_world 18))
    as (_ & Hfail & _).
  exact (Hfail "server selection timeout" eq_refl eq_refl eq_refl).
Defined.

(** ** Runtime failures that are not captured (C3) *)

(** The acceptor that waits in its deferred [wg.Wait()] for a session that
    was never started stays there, unless [wg.Wait()] itself fails. *)
Lemma step_waiting_inv v l s s' :
  waiting_inv v s → no_failure l → step_fn l s = Some s' → waiting_inv v s'.
Proof.
  intros (Ha & Hwg & Hc) Hl H. unfold waiting_inv.
  step_cases H; step_simpl; rewrite ?list_alter_alter_eq;
    repeat match goal with
           | E : _ <$> conns _ !! _ = Some _ |- _ =>
               let cn := fresh "cn" in
               apply fmap_Some in E as (cn & ? & ?)
           end;
    simplify_eq.
  all: try (by destruct (Hl v0)).
  all: try match goal with
    | E : conns (world _) !! _ = Some ?cn, E1 : _ = sess ?cn |- _ =>
        rewrite (Hc _ _ E) in E1; discriminate E1
    | E : conns (world _) !! _ = Some ?cn, E1 : sess ?cn = _ |- _ =>
        rewrite (Hc _ _ E) in E1; discriminate E1
    end.
  all: try match goal with
    | |- context [signalled ?ch ?w] =>
        destruct (signalled_conns ch w ltac:(auto)) as (-> & -> & _); done
    end.
  all: try (rewrite Ha in *; simplify_eq).
  all: try (split_and!; [done|done|]; intros c' cn' E';
            apply lookup_alter_inv in E' as (cn0 & Ec & [[Hne ->]| [-> ->]]);
            cbn; by eapply Hc).
  all: try (apply Z.eqb_eq in E0; lia).
  all: split_and!; first [done | exact Hc | lia].
Qed.

Lemma run_schedule_waiting v ls s :
  waiting_inv v s → Forall no_failure ls → waiting_inv v (run_schedule ls s).
Proof.
  revert s. induction ls as [|l ls IH]; intros s Hs Hls; [done|].
  apply Forall_cons in Hls as [Hl Hls]. cbn [run_schedule].
  destruct (step_fn l s) as [s'|] eqn:E; [|by apply IH].
  apply IH; [|done]. by eapply step_waiting_inv.
Qed.

(** C3, as the claim states it, fails: a runtime failure during serving is
    not always captured.  First, [opened(...)] panics for a connection after
    [wg.Add(1)]: the deferred call of [accept] waits in [wg.Wait()] for a
    session that was never started; the panic does not come to [run], [Run]
    does not come back and nothing is logged as a crash or restarted, however
    the process goes on.  Second, a panic leaves the handler of a
    connection: it ends the process; [Run] does not come back either. *)
Lemma runtime_failure_not_captured :
  (exec (Run tcp_proxy gauge_panic_env) (NewProxy_world 18)).1 = NoReturn
  ∧ existsb crash_event
      (trace (exec (Run tcp_proxy gauge_panic_env) (NewProxy_world 18)).2) = false
  ∧ crashed stuck_process = None
  ∧ acceptor stuck_process = A_Wait (Some gauge_panic)
  ∧ wg (world stuck_process) = 1%Z
  ∧ sess <$> conns (world stuck_process) = [S_None]
  ∧ (∀ ls, Forall no_failure ls →
       acceptor (run_schedule ls stuck_process) = A_Wait (Some gauge_panic))
  ∧ (exec (Run tcp_proxy handler_panic_env) (NewProxy_world 18)).1 = NoReturn
  ∧ existsb crash_event
      (trace (exec (Run tcp_proxy handler_panic_env) (NewProxy_world 18)).2) = false
  ∧ crashed (served tcp_proxy handler_panic_env tcp_listen_world) = Some handler_panic.
Proof.
  split_and!; try (vm_compute; reflexivity).
  intros ls Hls. apply (run_schedule_waiting gauge_panic ls stuck_process); [|done].
  split_and!; [vm_compute; reflexivity|vm_compute; reflexivity|].
  intros [|c] cn E; [|done]. apply Some_inj in E as <-. reflexivity.
Qed.

(** * Further properties of [proxy.go] *)

(** ** The goroutines of [accept] do not panic of themselves *)

(** The statements of the sessions, the watchers, the listener closer and
    the callers of [Shutdown] and [Kill] never panic: [close(done)] finds
    [done] open, [wg.Done()] finds the counter positive, [c.Close()] has its
    connection.  The process is ended by a panic only when a panic leaves
    the handler.  Nor do the statements of the acceptor panic ([wg.Add(1)]
    finds the counter non-negative). *)
Theorem goroutines_do_not_panic l s s' :
  reachable s → step_fn l s = Some s' →
  (crashed s' ≠ None →
     ∃ c v, l = LHandler c (HandlerPanics v) ∧ crashed s' = Some v)
  ∧ (∀ i v w', acceptor_instr (acceptor s) = Some i →
       exec i (world s) ≠ (Panicked v, w')).
Proof.
  intros Hs H. pose proof (reachable_conns_inv s Hs) as Hinv. split.
  - step_cases H; step_simpl;
      repeat match goal with
             | E : _ <$> conns _ !! _ = Some _ |- _ =>
                 let cn := fresh "cn" in
                 apply fmap_Some in E as (cn & ? & ?)
             end;
      simplify_eq; intros Hc; try done; try (by eauto).
    + conn_facts Hinv E. rewrite E0 in Hcn. cbn in E1. rewrite E in E1. cbn in E1.
      destruct Hcn as [Hd _]. congruence.
    + cbn in E1. by rewrite E in E1.
    + destruct Hinv as (_ & _ & Hwg & _).
      pose proof (sum_lookup_le wg_live _ _ _ E) as Hle.
      unfold wg_live in Hle at 1. rewrite E0 in Hle. lia.
  - destruct Hinv as (_ & _ & Hwg & _).
    intros i v w' Hi. destruct (acceptor s); cbn in Hi; simplify_eq;
      go_unfold_goal; cbn; repeat case_match; try done.
    lia.
Qed.

Lemma goroutines_do_not_panic_witness :
  reachable session_process
  ∧ step_fn (LHandler 0 (HandlerPanics handler_panic)) session_process
    = Some handler_panic_process
  ∧ ∃ c v, LHandler 0 (HandlerPanics handler_panic) = LHandler c (HandlerPanics v)
           ∧ crashed handler_panic_process = Some v.
Proof.
  assert (reachable session_process) as Hs
    by apply run_schedule_reachable, boot_reachable.
  split; [exact Hs|]. split; [reflexivity|].
  apply (goroutines_do_not_panic (LHandler 0 (HandlerPanics handler_panic))
           session_process handler_panic_process Hs eq_refl).
  discriminate.
Defined.

(** ** [accept] waits for the sessions *)

Lemma boot_started_inv mask : started_inv (boot mask).
Proof. intros c cn H. done. Qed.

Lemma step_started_inv l s s' :
  conns_inv s → started_inv s → step_fn l s = Some s' → started_inv s'.
Proof.
  intros Hcinv Hinv H.
  step_cases H; step_simpl; rewrite ?list_alter_alter_eq;
    repeat match goal with
           | E : _ <$> conns _ !! _ = Some _ |- _ =>
               let cn := fresh "cn" in
               apply fmap_Some in E as (cn & ? & ?)
           end;
    simplify_eq.
  all: intros c' cn' E'; step_simpl_in E'; step_simpl.
  all: try match type of E' with
    | context [signalled ?ch ?w] =>
        rewrite (proj1 (signalled_conns ch w ltac:(auto))) in E'
    end.
  all: try (exact (Hinv c' cn' E')).
  all: try (apply lookup_alter_inv in E' as (cn0 & Ec & [[Hne ->]| [-> ->]]);
            [ exact (Hinv _ _ Ec) |];
            specialize (Hinv _ _ Ec); simplify_eq; sess_rewrite_all;
            destruct (acceptor s) as [| | | | | | | | |[?|]|[?|]|[?|]];
            cbn in *; unfold wg_live in *; cbn in *; sess_rewrite_all;
            naive_solver).
  all: try (pose proof (Hinv c' cn' E') as Hi; rewrite E in Hi; cbn in Hi;
            try done; repeat case_match; simplify_eq; try done;
            first [ naive_solver
                  | split; [|done];
                    destruct Hcinv as (_ & _ & Hwg & _);
                    pose proof (sum_lookup_le wg_live _ _ _ E') as Hle;
                    apply Z.eqb_eq in E0; lia ]).
  - destruct Hcinv as (_ & Hacc & _). rewrite E in Hacc. cbn in Hacc.
    by rewrite Hacc in E'.
  - apply lookup_alter_inv in E' as (cn0 & Ec & [[Hne ->]| [-> ->]]).
    + specialize (Hinv _ _ Ec). rewrite E in Hinv. cbn. naive_solver.
    + done.
  - apply lookup_alter_inv in E' as (cn0 & Ec & [[Hne ->]| [-> ->]]);
      specialize (Hinv _ _ Ec); rewrite E in Hinv; done.
  - apply lookup_app_Some in E' as [E'|[Hlen E']].
    + specialize (Hinv _ _ E'). rewrite E in Hinv. done.
    + intros _. apply list_lookup_singleton_Some in E' as [E' _]. lia.
Qed.

Lemma reachable_started_inv s : reachable s → started_inv s.
Proof.
  intros [mask H].
  pose proof (rtc_step_invariant (λ s, conns_inv s ∧ started_inv s)) as Hind.
  eapply Hind; [|done|split; [apply boot_conns_inv|apply boot_started_inv]].
  intros l s1 s2 [H1 H2] Hstep. split.
  - by eapply step_conns_inv.
  - by eapply step_started_inv.
Qed.

Lemma reachable_drain_inv s : reachable s → drain_inv s.
Proof.
  intros [mask H].
  eapply (rtc_step_invariant drain_inv); [|done|done].
  intros l s1 s2. apply step_drain_inv.
Qed.

(** When [accept] has returned (by its [return], past the [wg.Wait()] of its
    deferred call), [quit] is closed and every connection that was accepted
    has had its session, which has closed the socket, closed [done] and
    called [wg.Done()]: no session is left behind in the handler. *)
Theorem accept_waits_for_sessions s :
  reachable s → acceptor s = A_Done None →
  quit (world s) = ChClosed
  ∧ ∀ c cn, conns (world s) !! c = Some cn →
      (sess cn = S_Closed ∨ sess cn = S_Exit)
      ∧ sock_open cn = false ∧ done cn = ChClosed.
Proof.
  intros Hs Ha. split.
  - pose proof (reachable_drain_inv s Hs) as Hd. unfold drain_inv in Hd.
    by rewrite Ha in Hd.
  - intros c cn E.
    pose proof (reachable_started_inv s Hs c cn E) as Hst. rewrite Ha in Hst.
    pose proof (reachable_conns_inv s Hs) as Hinv. conn_facts Hinv E.
    destruct Hst as [Hwg Hn]. unfold wg_live in Hwg.
    destruct (sess cn); try done; naive_solver.
Qed.

Lemma accept_waits_for_sessions_witness :
  reachable ended_process
  ∧ acceptor ended_process = A_Done None
  ∧ quit (world ended_process) = ChClosed
  ∧ sess <$> conns (world ended_process) = [S_Exit].
Proof.
  assert (reachable ended_process) as Hs
    by (do 2 apply run_schedule_reachable; apply boot_reachable).
  split; [exact Hs|]. split; [reflexivity|].
  split; [exact (proj1 (accept_waits_for_sessions ended_process Hs eq_refl))|].
  reflexivity.
Defined.

(** ** The socket of a connection is closed once *)

Lemma socket_closes_app c t1 t2 :
  socket_closes c (t1 ++ t2) = socket_closes c t1 + socket_closes c t2.
Proof. apply count_occ_app. Qed.

Lemma socket_closes_single c e :
  socket_closes c [e] = if decide (e = EvConnClose c true) then 1 else 0.
Proof.
  unfold socket_closes. cbn [count_occ].
  destruct (Event_eq_dec e (EvConnClose c true)); by case_decide.
Qed.

Lemma socket_closed_alter (f : Conn → Conn) c c' (l : list Conn) :
  (∀ cn, sock_open (f cn) = sock_open cn) →
  match alter f c l !! c' with
  | Some cn => if sock_open cn then 0 else 1
  | None => 0
  end
  = match l !! c' with
    | Some cn => if sock_open cn then 0 else 1
    | None => 0
    end.
Proof.
  intros Hf. destruct (decide (c' = c)) as [->|Hne].
  - rewrite list_lookup_alter_eq. destruct (l !! c); cbn; [|done].
    by rewrite Hf.
  - by rewrite list_lookup_alter_ne.
Qed.

Lemma socket_closed_close (f : Conn → Conn) c c' (l : list Conn) cn :
  l !! c = Some cn → (∀ x, sock_open (f x) = false) →
  (if decide (EvConnClose c (sock_open cn) = EvConnClose c' true) then 1 else 0)
  + match l !! c' with
    | Some cn => if sock_open cn then 0 else 1
    | None => 0
    end
  = match alter f c l !! c' with
    | Some cn => if sock_open cn then 0 else 1
    | None => 0
    end.
Proof.
  intros E Hf. destruct (decide (c' = c)) as [->|Hne].
  - rewrite list_lookup_alter_eq, E. cbn. rewrite Hf.
    destruct (sock_open cn); by case_decide.
  - rewrite list_lookup_alter_ne by done. rewrite decide_False; [done|congruence].
Qed.

Lemma signalled_socket ch w c :
  ch = ChQuit ∨ ch = ChKill →
  socket_closes c (trace (signalled ch w)) = socket_closes c (trace w)
  ∧ socket_closed c (signalled ch w) = socket_closed c w.
Proof.
  intros Hch. unfold signalled. destruct (chan_state ch w) as [[|]|]; [|done..].
  split; [|by destruct Hch as [-> | ->]].
  cbn [emit trace]. rewrite set_chan_trace, socket_closes_app, socket_closes_single.
  rewrite decide_False by (by destruct Hch as [-> | ->]). lia.
Qed.

Lemma boot_sock_inv mask : sock_inv (boot mask).
Proof. intros c. done. Qed.

Lemma step_sock_inv l s s' :
  sock_inv s → step_fn l s = Some s' → sock_inv s'.
Proof.
  intros Hinv H.
  step_cases H; step_simpl; rewrite ?list_alter_alter_eq;
    repeat match goal with
           | E : _ <$> conns _ !! _ = Some _ |- _ =>
               let cn := fresh "cn" in
               apply fmap_Some in E as (cn & ? & ?)
           end;
    simplify_eq.
  all: intros c'; step_simpl; specialize (Hinv c').
  all: try (exact Hinv).
  all: try match goal with
    | |- context [signalled ?ch ?w] =>
        destruct (signalled_socket ch w c' ltac:(auto)) as [-> ->]; exact Hinv
    end.
  all: unfold socket_closed in *; step_simpl;
    rewrite ?socket_closes_app, ?socket_closes_single, Hinv.
  all: try (rewrite decide_False, Nat.add_0_r by done).
  all: try done.
  all: try (by rewrite socket_closed_alter).
  all: try (rewrite Nat.add_comm; by apply socket_closed_close).
  destruct (decide (c' = length (conns (world s)))) as [->|Hne].
  - rewrite lookup_ge_None_2 by done. by rewrite lookup_app_r, Nat.sub_diag.
  - by rewrite lookup_snoc_ne.
Qed.

Lemma reachable_sock_inv s : reachable s → sock_inv s.
Proof.
  intros [mask H].
  eapply (rtc_step_invariant sock_inv); [|done|apply boot_sock_inv].
  intros l s1 s2. apply step_sock_inv.
Qed.

(** The socket of a connection is closed once: of all the calls of
    [c.Close()] by the session and by the watcher of a connection, in any
    run, at most one finds the socket open, and exactly one when the socket
    is closed; every later call gets the error.  A session that is past its
    [c.Close()] has its socket closed. *)
Theorem socket_closed_once s c :
  reachable s →
  socket_closes c (trace (world s)) ≤ 1
  ∧ (∀ cn, conns (world s) !! c = Some cn →
       (socket_closes c (trace (world s)) = 1 ↔ sock_open cn = false)
       ∧ (crashed s = None → past_close (sess cn) = true → sock_open cn = false))
  ∧ (conns (world s) !! c = None → socket_closes c (trace (world s)) = 0).
Proof.
  intros Hs. pose proof (reachable_sock_inv s Hs c) as Hc.
  unfold socket_closed in Hc. split_and!.
  - rewrite Hc. repeat case_match; lia.
  - intros cn E. rewrite E in Hc. split.
    + rewrite Hc. destruct (sock_open cn); naive_solver.
    + intros Hlive Hp. pose proof (reachable_conns_inv s Hs) as Hinv.
      conn_facts Hinv E. destruct (sess cn); try done; naive_solver.
  - intros E. by rewrite E in Hc.
Qed.

Lemma socket_closed_once_witness :
  reachable force_closed_process
  ∧ socket_closes 0 (trace (world force_closed_process)) = 1
  ∧ sess <$> conns (world force_closed_process) = [S_Exit]
  ∧ (EvConnClose 0 false ∈ trace (world force_closed_process)).
Proof.
  assert (reachable force_closed_process) as Hs
    by (do 2 apply run_schedule_reachable; apply boot_reachable).
  split; [exact Hs|].
  destruct (socket_closed_once force_closed_process 0 Hs) as (_ & Hconn & _).
  destruct (Hconn _ eq_refl) as [Hone _].
  split; [exact (proj2 Hone eq_refl)|]. split; [reflexivity|].
  apply list_elem_of_In. vm_compute. repeat (first [left; reflexivity | right]).
Defined.

(** ** The listener closer *)

Lemma listener_closes_snoc t e :
  listener_closes (t ++ [e])
  = listener_closes t + (if decide (e = EvListenerClose) then 1 else 0).
Proof.
  unfold listener_closes. rewrite count_occ_app. cbn [count_occ].
  destruct (Event_eq_dec e EvListenerClose); by case_decide.
Qed.

Lemma signalled_listener ch w :
  ch = ChQuit ∨ ch = ChKill →
  listener (signalled ch w) = listener w
  ∧ listener_closes (trace (signalled ch w)) = listener_closes (trace w)
  ∧ (quit w = ChClosed → quit (signalled ch w) = ChClosed).
Proof.
  intros Hch. unfold signalled. destruct (chan_state ch w) as [[|]|]; [|done..].
  split_and!.
  - by destruct Hch as [-> | ->].
  - cbn [emit trace]. rewrite set_chan_trace, listener_closes_snoc.
    rewrite decide_False by done. lia.
  - by destruct Hch as [-> | ->].
Qed.

Lemma boot_closer_inv mask : closer_inv (boot mask).
Proof. done. Qed.

Lemma step_closer_inv l s s' :
  closer_inv s → step_fn l s = Some s' → closer_inv s'.
Proof.
  intros [Hnone Hinv] H. unfold closer_inv in *.
  step_cases H; step_simpl;
    repeat match goal with
           | E : closer _ = _ |- _ => rewrite E in Hinv, Hnone |- *
           | E : acceptor _ = _ |- _ => rewrite E in Hinv, Hnone |- *
           end;
    try done.
  all: try match goal with
    | |- context [signalled ?ch ?w] =>
        destruct (signalled_listener ch w ltac:(auto)) as (-> & -> & Hq);
        destruct (closer s); naive_solver
    end.
  all: rewrite ?listener_closes_snoc;
    try (rewrite decide_False, Nat.add_0_r by done);
    try (rewrite decide_True by done).
  all: try (destruct (closer s); naive_solver).
  - apply bool_decide_eq_true in E0. cbn in E0. naive_solver.
  - destruct Hinv as (HQ & -> & Hn). cbn. rewrite Hn. naive_solver.
  - case_bool_decide; (split; [done|]); destruct (closer s); naive_solver.
Qed.

Lemma reachable_closer_inv s : reachable s → closer_inv s.
Proof.
  intros [mask H].
  eapply (rtc_step_invariant closer_inv); [|done|apply boot_closer_inv].
  intros l s1 s2. apply step_closer_inv.
Qed.

(** In the first call of [listen] of a process (a state reached from
    [boot]: one call of [listen], with its one closer goroutine and no closer
    left behind by an earlier, crashed call), while [accept] runs, the
    listener is closed by the closer goroutine only, once, and only after
    [quit] has been closed: as long as [quit] is open the listener is open.
    The [l.Close()] of that closer then finds the listener open, so that it
    does not come to log an error.  Nothing is said here of the closer of a
    call that has ended: it is still waiting on [quit], and its [l.Close()]
    comes after the deferred [l.Close()] of [listen]. *)
Theorem listener_closed_on_shutdown s :
  reachable s → acceptor s ≠ A_None → (∀ p, acceptor s ≠ A_Done p) →
  listener_closes (trace (world s)) ≤ 1
  ∧ (quit (world s) = ChOpen →
       listener (world s) = true ∧ listener_closes (trace (world s)) = 0)
  ∧ (listener (world s) = false →
       quit (world s) = ChClosed ∧ closer s = L_Exit
       ∧ listener_closes (trace (world s)) = 1)
  ∧ (∀ e, closer s ≠ L_Log e).
Proof.
  intros Hs Ha _. destruct (reachable_closer_inv s Hs) as [_ Hinv].
  destruct (closer s); split_and!; try done; try naive_solver; try lia;
    intuition congruence.
Qed.

Lemma listener_closed_on_shutdown_witness :
  reachable shutdown_process
  ∧ acceptor shutdown_process = A_Accept
  ∧ listener (world shutdown_process) = false
  ∧ quit (world shutdown_process) = ChClosed
  ∧ listener_closes (trace (world shutdown_process)) = 1.
Proof.
  assert (reachable shutdown_process) as Hs
    by (do 2 apply run_schedule_reachable; apply boot_reachable).
  split; [exact Hs|]. split; [reflexivity|]. split; [reflexivity|].
  destruct (listener_closed_on_shutdown shutdown_process Hs)
    as (_ & _ & Hclosed & _); [done|done|].
  destruct (Hclosed eq_refl) as (HQ & _ & Hn). split; [exact HQ | exact Hn].
Defined.

(** ** What [Run] leaves behind *)







(** ** The restart comes after the release *)

Lemma serve_end_back ups lr :
  came_back (serve_end ups lr).1 = came_back lr.1.
Proof. by destruct lr as [[r|v|] w']. Qed.

(** The upstreams the sequence has established are closed when it ends. *)
Lemma serve_releases p env w :
  came_back (call None (serve p env) w).1 = true →
  ∀ u, releases u (new_events w (call None (serve p env) w).2)
       = if established p env u then 1 else 0.
Proof.
  assert (∀ w0 ups,
    came_back (serve_end ups (exec (listen p env) w0)).1 = true →
    ∃ evs, (∀ u, releases u evs = 0)
           ∧ trace (serve_end ups (exec (listen p env) w0)).2
             = trace w0 ++ evs ++ (EvMongoClose <$> ups)) as Hend.
  { intros w0 ups. destruct (listen_events p env w0) as (evs & Htr & Hevs).
    destruct (exec (listen p env) w0) as [[r|v|] w'] eqn:E; cbn in Htr |- *;
      [| |done]; intros _; exists evs;
      (split; [by intros; apply listen_event_releases|]);
      by rewrite emit_all_trace, Htr, <- app_assoc. }
  unfold established. rewrite serve_eq. cbv zeta.
  destruct (connectPrimary env) as [|e|v]; cbn [connected andb].
  - destruct (failover p); cbn [andb].
    + destruct (connectFailover env) as [|e|v]; cbn [connected].
      * intros Hback.
        destruct (Hend _ [Failover; Primary] Hback) as (evs & Hevs & Htr).
        erewrite new_events_app; last first.
        { etrans; [apply Htr|]. cbn. rewrite <- !app_assoc. cbn. reflexivity. }
        intros u. rewrite !releases_cons, !releases_app, !releases_cons, Hevs.
        destruct u; repeat case_decide; done.
      * intros _ u. erewrite new_events_app; last first.
        { cbn. by rewrite <- !app_assoc. }
        by destruct u.
      * intros _ u. erewrite new_events_app; last first.
        { cbn. by rewrite <- !app_assoc. }
        by destruct u.
    + intros Hback. destruct (Hend _ [Primary] Hback) as (evs & Hevs & Htr).
      erewrite new_events_app; last first.
      { etrans; [apply Htr|]. cbn. rewrite <- !app_assoc. cbn. reflexivity. }
      intros u. rewrite !releases_cons, !releases_app, !releases_cons, Hevs.
      destruct u; repeat case_decide; done.
  - intros _ u. erewrite new_events_app; [|by cbn]. by destruct u.
  - intros _ u. erewrite new_events_app; [|by cbn]. by destruct u.
Qed.

(** When the start-up-and-serve sequence of [run] panics, the events of the
    call of [Run] are the events of the sequence followed by the four of the
    crash handler: the "Crashed" log, the sleep, the "Restarting" log and the
    start of the goroutine that runs [run] again.  So one restart is started,
    it is the last thing the call does, and before it the deferred calls of
    the sequence have closed every upstream that was established, once. *)
Theorem restart_after_release p env w v w1 :
  call None (serve p env) w = (Panicked v, w1) →
  ∃ sevs,
    new_events w (exec (Run p env) w).2 = sevs ++ restart_events v
    ∧ (∀ e, e ∈ sevs → restart_event e = false)
    ∧ (∀ u, releases u sevs = if established p env u then 1 else 0)
    ∧ count_occ Event_eq_dec (new_events w (exec (Run p env) w).2) (EvGo GRestart) = 1.
Proof.
  intros Hp. destruct (serve_events p env w) as (sevs & Htr & Hno).
  pose proof (serve_releases p env w) as Hrel.
  rewrite (new_events_app _ _ _ Htr) in Hrel.
  rewrite Run_supervises. rewrite Hp in Htr, Hrel |- *. cbn [fst snd] in *.
  assert (new_events w (emit_all (restart_events v) w1) = sevs ++ restart_events v)
    as Hnew by (apply new_events_app; by rewrite emit_all_trace, Htr, app_assoc).
  exists sevs. split_and!; [done|done|by apply Hrel|].
  rewrite Hnew, count_occ_app.
  assert (count_occ Event_eq_dec sevs (EvGo GRestart) = 0) as ->.
  { apply count_occ_not_In. intros Hin%list_elem_of_In. by apply Hno in Hin. }
  reflexivity.
Qed.

Lemma restart_after_release_witness :
  ∃ w1 sevs,
    call None (serve tcp_proxy bind_panic_env) (NewProxy_world 18)
    = (Panicked "runtime error: invalid memory address or nil pointer dereference", w1)
    ∧ new_events (NewProxy_world 18)
        (exec (Run tcp_proxy bind_panic_env) (NewProxy_world 18)).2
      = sevs ++ restart_events
                  "runtime error: invalid memory address or nil pointer dereference"
    ∧ releases Primary sevs = 1.
Proof.
  eexists. 
  destruct (restart_after_release tcp_proxy bind_panic_env (NewProxy_world 18) _ _
              eq_refl) as (sevs & Hnew & _ & Hrel & _).
  exists sevs. split; [reflexivity|]. split; [exact Hnew | exact (Hrel Primary)].
Defined.

(** ** Nothing is reopened *)

Lemma later_refl s : later s s.
Proof. split_and!; try done. intros c cn E. by exists cn. Qed.

Lemma later_trans s1 s2 s3 : later s1 s2 → later s2 s3 → later s1 s3.
Proof.
  intros (Q1 & K1 & T1 & C1) (Q2 & K2 & T2 & C2). split_and!; [auto|auto|by etrans|].
  intros c cn E. destruct (C1 c cn E) as (cn2 & E2 & R2 & D2 & S2).
  destruct (C2 c cn2 E2) as (cn3 & E3 & R3 & D3 & S3).
  exists cn3. split_and!; [done|congruence|auto|auto].
Qed.

Lemma later_alter (l : list Conn) (f : Conn → Conn) c :
  (∀ cn, remote (f cn) = remote cn
         ∧ (done cn = ChClosed → done (f cn) = ChClosed)
         ∧ (sock_open cn = false → sock_open (f cn) = false)) →
  ∀ c' cn, l !! c' = Some cn →
    ∃ cn', alter f c l !! c' = Some cn'
           ∧ remote cn' = remote cn
           ∧ (done cn = ChClosed → done cn' = ChClosed)
           ∧ (sock_open cn = false → sock_open cn' = false).
Proof.
  intros Hf c' cn E. destruct (decide (c' = c)) as [->|Hne].
  - exists (f cn). rewrite list_lookup_alter_eq, E. split; [done|]. apply Hf.
  - exists cn. by rewrite list_lookup_alter_ne.
Qed.

Lemma signalled_later ch w :
  ch = ChQuit ∨ ch = ChKill →
  (quit w = ChClosed → quit (signalled ch w) = ChClosed)
  ∧ (kill w = ChClosed → kill (signalled ch w) = ChClosed)
  ∧ trace w `prefix_of` trace (signalled ch w)
  ∧ conns (signalled ch w) = conns w.
Proof.
  intros Hch. unfold signalled.
  destruct (chan_state ch w) as [[|]|]; [|done..].
  cbn [emit trace conns quit kill]. rewrite set_chan_trace.
  destruct Hch as [-> | ->]; cbn; split_and!; try done; by apply prefix_app_r.
Qed.

Lemma step_later l s s' : step_fn l s = Some s' → later s s'.
Proof.
  intros H. unfold later.
  step_cases H; step_simpl; rewrite ?list_alter_alter_eq;
    repeat match goal with
           | E : _ <$> conns _ !! _ = Some _ |- _ =>
               let cn := fresh "cn" in
               apply fmap_Some in E as (cn & ? & ?)
           end;
    simplify_eq.
  all: try match goal with
    | |- context [signalled ?ch ?w] =>
        destruct (signalled_later ch w ltac:(auto)) as (HQ & HK & HT & ->);
        split_and!; [done..|]; intros c' cn' E'; by exists cn'
    end.
  all: split_and!; [done|done|first [done | by apply prefix_app_r]|].
  all: try (intros c' cn' E'; by exists cn').
  all: try (apply later_alter; by intros cn').
  intros c' cn' E'. exists cn'. split; [|done]. by apply lookup_app_l_Some.
Qed.

(** Along every run of the process nothing is reopened: a signal that is
    closed stays closed (the channels are made once, in [NewProxy]), a
    connection keeps its place and its remote address, its [done] and its
    socket stay closed once they are closed, and the trace only grows. *)
Theorem nothing_reopens s s' :
  rtc step s s' → later s s'.
Proof.
  induction 1 as [s|s1 s2 s3 [l Hl] _ IH]; [apply later_refl|].
  eapply later_trans; [by eapply step_later | exact IH].
Qed.

Lemma nothing_reopens_witness :
  rtc step shutdown_process (run_schedule [LAcceptFailed "closed"; LAcceptor] shutdown_process)
  ∧ quit (world shutdown_process) = ChClosed
  ∧ quit (world (run_schedule [LAcceptFailed "closed"; LAcceptor] shutdown_process))
    = ChClosed.
Proof.
  pose proof (run_schedule_rtc [LAcceptFailed "closed"; LAcceptor] shutdown_process)
    as Hrun.
  split; [exact Hrun|]. split; [reflexivity|].
  exact (proj1 (nothing_reopens _ _ Hrun) eq_refl).
Defined.

(** ** A session runs to its end *)

Lemma session_step_next s c cn pc' :
  reachable s → crashed s = None → conns (world s) !! c = Some cn →
  session_next (sess cn) = Some pc' →
  ∃ s' cn', step_fn (LSession c) s = Some s'
            ∧ crashed s' = None
            ∧ conns (world s') !! c = Some cn'
            ∧ sess cn' = pc'.
Proof.
  intros Hs Hlive E Hnext.
  pose proof (reachable_conns_inv s Hs) as Hinv. conn_facts Hinv E.
  destruct Hinv as (_ & _ & Hwg & _).
  pose proof (sum_lookup_le wg_live _ _ _ E) as Hle. unfold wg_live in Hle at 1.
  unfold step_fn, step_session. rewrite Hlive, E. cbn.
  destruct (sess cn) eqn:Hpc; cbn in Hnext; simplify_eq; go_unfold_goal; cbn.
  - rewrite E. cbn. eexists _, _. split; [reflexivity|]. step_simpl.
    rewrite list_alter_alter_eq, list_lookup_alter_eq, E. done.
  - eexists _, _. split; [reflexivity|]. step_simpl.
    rewrite list_lookup_alter_eq, E. done.
  - destruct Hcn as [Hd _]. rewrite E. cbn. rewrite Hd. cbn.
    eexists _, _. split; [reflexivity|]. step_simpl.
    rewrite list_alter_alter_eq, list_lookup_alter_eq, E. done.
  - destruct (wg (world s) - 1 <? 0)%Z eqn:Hneg; [lia|].
    eexists _, _. split; [reflexivity|]. step_simpl.
    rewrite list_lookup_alter_eq, E. done.
  - eexists _, _. split; [reflexivity|]. step_simpl.
    rewrite list_lookup_alter_eq, E. done.
Qed.

(** Once the handler has returned the session cannot be held up: its five
    remaining statements can be run one after the other, whatever the other
    goroutines have done in between before; none of them blocks or panics,
    and at the end the socket and [done] are closed. *)
Theorem session_runs_to_its_end s c cn :
  reachable s → crashed s = None → conns (world s) !! c = Some cn →
  sess cn = S_Close →
  crashed (run_schedule (replicate 5 (LSession c)) s) = None
  ∧ ∃ cn', conns (world (run_schedule (replicate 5 (LSession c)) s)) !! c = Some cn'
           ∧ sess cn' = S_Exit ∧ sock_open cn' = false ∧ done cn' = ChClosed.
Proof.
  intros Hs Hlive E Hpc.
  assert (∀ s0 cn0 pc', reachable s0 → crashed s0 = None →
            conns (world s0) !! c = Some cn0 → session_next (sess cn0) = Some pc' →
            ∀ ls, ∃ s1 cn1, run_schedule (LSession c :: ls) s0 = run_schedule ls s1
                            ∧ reachable s1 ∧ crashed s1 = None
                            ∧ conns (world s1) !! c = Some cn1 ∧ sess cn1 = pc')
    as Hstep.
  { intros s0 cn0 pc' Hs0 Hl0 E0 Hn0 ls.
    destruct (session_step_next s0 c cn0 pc' Hs0 Hl0 E0 Hn0)
      as (s1 & cn1 & Hst & Hl1 & E1 & Hpc1).
    exists s1, cn1. cbn [run_schedule]. rewrite Hst. split_and!; try done.
    eapply step_reachable; [done|]. by exists (LSession c). }
  cbn [replicate].
  destruct (Hstep s cn S_LogClose Hs Hlive E ltac:(by rewrite Hpc)
              [LSession c; LSession c; LSession c; LSession c])
    as (s1 & cn1 & -> & Hs1 & Hl1 & E1 & Hp1).
  destruct (Hstep s1 cn1 S_CloseDone Hs1 Hl1 E1 ltac:(by rewrite Hp1)
              [LSession c; LSession c; LSession c])
    as (s2 & cn2 & -> & Hs2 & Hl2 & E2 & Hp2).
  destruct (Hstep s2 cn2 S_WgDone Hs2 Hl2 E2 ltac:(by rewrite Hp2)
              [LSession c; LSession c])
    as (s3 & cn3 & -> & Hs3 & Hl3 & E3 & Hp3).
  destruct (Hstep s3 cn3 S_Closed Hs3 Hl3 E3 ltac:(by rewrite Hp3) [LSession c])
    as (s4 & cn4 & -> & Hs4 & Hl4 & E4 & Hp4).
  destruct (Hstep s4 cn4 S_Exit Hs4 Hl4 E4 ltac:(by rewrite Hp4) [])
    as (s5 & cn5 & -> & Hs5 & Hl5 & E5 & Hp5).
  cbn [run_schedule]. split; [done|]. exists cn5.
  pose proof (reachable_conns_inv s5 Hs5) as Hinv. conn_facts Hinv E5.
  rewrite Hp5 in Hcn. naive_solver.
Qed.

Lemma session_runs_to_its_end_witness :
  reachable returned_process
  ∧ sess <$> conns (world returned_process) !! 0 = Some S_Close
  ∧ crashed (run_schedule (replicate 5 (LSession 0)) returned_process) = None
  ∧ ∃ cn', conns (world (run_schedule (replicate 5 (LSession 0)) returned_process)) !! 0
           = Some cn'
           ∧ sess cn' = S_Exit ∧ sock_open cn' = false ∧ done cn' = ChClosed.
Proof.
  assert (reachable returned_process) as Hs
    by (do 2 apply run_schedule_reachable; apply boot_reachable).
  split; [exact Hs|]. split; [reflexivity|].
  exact (session_runs_to_its_end returned_process 0 _ Hs eq_refl eq_refl eq_refl).
Defined.
